(** * PlasticGeoDistance: a shallow embedding of the geodesy engine

    The embedded program is [PlasticGeoDistance.js] with the record shapes
    of [IgeoInterfaces.ts].

    Number model.  A JavaScript number is idealised as a real number of the
    Standard Library ([R]); [Math.sin], [Math.cos], [Math.sqrt], [Math.asin]
    and [Math.PI] are the corresponding functions of [Reals], and
    [Math.atan2] is written out by quadrant below.  Rounding, signed zeros
    and the infinities are outside the model.  The only place where the
    source tests for NaN on one of its arguments is the radius of [bounds],
    so that argument has the type [number], which adds NaN to the reals.

    Strings are strings of ASCII characters, and [toUpperCase] maps the
    letters a-z to A-Z.

    The search loop of [computeMinimumDistancePoint] is a [while] loop whose
    number of iterations depends on the data; it is embedded with an
    iteration budget, and every run is metered: the meter counts the calls
    of [_sumRadianDistance] and of [radianDistance] made by the search.
    Over the reals nothing bounds the number of strict improvements of a
    total, so a run is a partial function of its budget; the runs on
    coinciding points are shown to return. *)

From Stdlib Require Import Reals Lra Lia List Bool Arith String Ascii Permutation.
Import ListNotations.

Open Scope R_scope.

(** ** Numbers *)

Inductive number : Type :=
| NaN : number
| Num : R -> number.

Definition isNaN (n : number) : bool :=
  match n with NaN => true | Num _ => false end.

Definition Rlt_b (a b : R) : bool := if Rlt_dec a b then true else false.
Definition Rle_b (a b : R) : bool := if Rle_dec a b then true else false.
Definition Rgt_b (a b : R) : bool := if Rgt_dec a b then true else false.
Definition Rge_b (a b : R) : bool := if Rge_dec a b then true else false.

(** [dist <= 0] on a number that may be NaN: every comparison with NaN is
    false. *)
Definition num_le0 (n : number) : bool :=
  match n with NaN => false | Num r => Rle_b r 0 end.

(** The real value of a number that is known not to be NaN. *)
Definition num_val (n : number) : R :=
  match n with NaN => 0 | Num r => r end.

Module Math.

Definition PI : R := Rtrigo1.PI.
Definition sin : R -> R := Rtrigo_def.sin.
Definition cos : R -> R := Rtrigo_def.cos.
Definition asin : R -> R := Ratan.asin.
Definition sqrt : R -> R := R_sqrt.sqrt.
Definition abs : R -> R := Rabs.
Definition max : R -> R -> R := Rmax.
Definition min : R -> R -> R := Rmin.

(** [Math.atan2 y x], by quadrant; [atan2 0 0 = 0]. *)
Definition atan2 (y x : R) : R :=
  if Rlt_dec 0 x then atan (y / x)
  else if Rlt_dec x 0 then
         (if Rle_dec 0 y then atan (y / x) + PI else atan (y / x) - PI)
  else if Rlt_dec 0 y then PI / 2
  else if Rlt_dec y 0 then - (PI / 2)
  else 0.

End Math.

(** ** Records of [IgeoInterfaces.ts] *)

Record Ilatlng : Type := mkLatlng { lat : R; lng : R }.

Record Ibounds : Type := mkBounds {
  minLat : R;
  minLng : R;
  maxLat : R;
  maxLng : R
}.

(** [Ilatlngxyz] has the two fields of [Ilatlng] and the three Cartesian
    ones; wherever the source reads only [.lat] and [.lng] of such an
    object, the embedding goes through the coercion. *)
Record Ilatlngxyz : Type := mkXyz {
  latlng :> Ilatlng;
  x : R;
  y : R;
  z : R
}.

Record IdistanceCenterResult : Type := mkResult {
  point : Ilatlng;
  avgDist : R;
  totalDist : R
}.

(** ** The engine instance *)

Record PlasticGeoDistance : Type := mkEngine {
  _units : string;
  _earthRadius : R
}.

Definition upcase (c : ascii) : ascii :=
  let n := nat_of_ascii c in
  if andb (Nat.leb 97 n) (Nat.leb n 122) then ascii_of_nat (n - 32) else c.

Fixpoint toUpperCase (s : string) : string :=
  match s with
  | EmptyString => EmptyString
  | String c r => String (upcase c) (toUpperCase r)
  end.

(** [units] is [None] when the argument is absent; the empty string is
    falsy as well. *)
Definition truthy (units : option string) : bool :=
  match units with
  | None => false
  | Some s => negb (String.eqb s EmptyString)
  end.

Definition constructor (units : option string) : PlasticGeoDistance :=
  let u :=
    match units with
    | Some s =>
        if truthy units then
          (if String.eqb (substring 0 1 (toUpperCase s)) "K" then "K" else "M")%string
        else "M"%string
    | None => "M"%string
    end in
  {| _units := u;
     _earthRadius := if String.eqb u "K" then 6371 else 3958756 / 1000 |}.

(** ** Conversions *)

Definition toRadians (degrees : R) : R := degrees * Math.PI / 180.
Definition toDegrees (rad : R) : R := rad * 180 / Math.PI.

Definition geoToRadians (geo : Ilatlng) : Ilatlng :=
  {| lat := toRadians (lat geo); lng := toRadians (lng geo) |}.

Definition geoToDegrees (geoR : Ilatlng) : Ilatlng :=
  {| lat := toDegrees (lat geoR); lng := toDegrees (lng geoR) |}.

(** ** Great-circle distance *)

Definition haversine_a (pA pB : Ilatlng) : R :=
  let dLat := lat pB - lat pA in
  let dLon := lng pB - lng pA in
  Math.sin (dLat / 2) * Math.sin (dLat / 2) +
  Math.cos (lat pA) * Math.cos (lat pB) *
  Math.sin (dLon / 2) * Math.sin (dLon / 2).

Definition radianDistance (pA pB : Ilatlng) : R :=
  let a := haversine_a pA pB in
  2 * Math.atan2 (Math.sqrt a) (Math.sqrt (1 - a)).

(** [isNaN(d) ? 0 : d]: the product of two reals is a number, so the guard
    always takes its second branch. *)
Definition distance (self : PlasticGeoDistance) (point1 point2 : Ilatlng) : R :=
  let R_ := _earthRadius self in
  let pA := geoToRadians point1 in
  let pB := geoToRadians point2 in
  let c := radianDistance pA pB in
  let d := Num (R_ * c) in
  if isNaN d then 0 else num_val d.

(** ** Bounding rectangle *)

Definition bounds (self : PlasticGeoDistance) (distance : number) (point : Ilatlng)
  : Ibounds :=
  let pA := geoToRadians point in
  let dist := distance in
  if orb (isNaN dist) (num_le0 dist) then
    {| minLat := lat pA; minLng := lng pA; maxLat := lat pA; maxLng := lng pA |}
  else
    let dist := num_val dist in
    let EARTH_RADIUS := _earthRadius self in
    let MIN_LAT := toRadians (-90) in
    let MAX_LAT := toRadians 90 in
    let MIN_LON := toRadians (-180) in
    let MAX_LON := toRadians 180 in
    let radDist := dist / EARTH_RADIUS in
    let minLat0 := lat pA - radDist in
    let maxLat0 := lat pA + radDist in
    let deltaLng := Math.asin (Math.sin radDist / Math.cos (lat pA)) in
    if andb (Rgt_b minLat0 MIN_LAT) (Rlt_b maxLat0 MAX_LAT) then
      let minLon := lng pA - deltaLng in
      let maxLon := lng pA + deltaLng in
      let minLon := if Rlt_b minLon MIN_LON then minLon + 2 * Math.PI else minLon in
      let maxLon := if Rgt_b maxLon MAX_LON then maxLon - 2 * Math.PI else maxLon in
      {| minLng := toDegrees minLon; maxLng := toDegrees maxLon;
         minLat := toDegrees minLat0; maxLat := toDegrees maxLat0 |}
    else
      let minLat1 := Math.max minLat0 MIN_LAT in
      let maxLat1 := Math.min maxLat0 MAX_LAT in
      {| minLng := toDegrees MIN_LON; maxLng := toDegrees MAX_LON;
         minLat := toDegrees minLat1; maxLat := toDegrees maxLat1 |}.

(** ** Containment *)

Definition isInBounds (point : Ilatlng) (bounds : Ibounds) : bool :=
  andb (andb (Rge_b (lat point) (minLat bounds)) (Rle_b (lat point) (maxLat bounds)))
       (if Rgt_b (minLng bounds) (maxLng bounds)
        then orb (Rge_b (lng point) (minLng bounds)) (Rle_b (lng point) (maxLng bounds))
        else andb (Rge_b (lng point) (minLng bounds)) (Rle_b (lng point) (maxLng bounds))).


(** ** Centering array, average and midpoint *)

Definition _toCenteringArray (sourceArray : list Ilatlng) : list Ilatlngxyz :=
  map (fun p =>
         let latr := toRadians (lat p) in
         let lngr := toRadians (lng p) in
         {| latlng := {| lat := latr; lng := lngr |};
            x := Math.cos latr * Math.cos lngr;
            y := Math.cos latr * Math.sin lngr;
            z := Math.sin latr |})
      sourceArray.

Definition _cartesianToRadians (cartesianPoint : Ilatlngxyz) : Ilatlngxyz :=
  {| latlng :=
       {| lng := Math.atan2 (y cartesianPoint) (x cartesianPoint);
          lat := Math.atan2 (z cartesianPoint)
                   (Math.sqrt (x cartesianPoint * x cartesianPoint +
                               y cartesianPoint * y cartesianPoint)) |};
     x := x cartesianPoint;
     y := y cartesianPoint;
     z := z cartesianPoint |}.

Definition zero_xyz : Ilatlngxyz :=
  {| latlng := {| lat := 0; lng := 0 |}; x := 0; y := 0; z := 0 |}.

(** The [for (let p of points)] loop of [_computeAverageCoordinates]. *)
Definition add_xyz (result p : Ilatlngxyz) : Ilatlngxyz :=
  {| latlng := latlng result;
     x := x result + x p;
     y := y result + y p;
     z := z result + z p |}.

Definition _computeAverageCoordinates (points : list Ilatlngxyz) : Ilatlngxyz :=
  let result := zero_xyz in
  if Nat.ltb 0 (List.length points) then
    let result := fold_left add_xyz points result in
    let result :=
      {| latlng := latlng result;
         x := x result / INR (List.length points);
         y := y result / INR (List.length points);
         z := z result / INR (List.length points) |} in
    _cartesianToRadians result
  else result.

Definition computeMidpoint (points : list Ilatlng) : Ilatlng :=
  let m := _computeAverageCoordinates (_toCenteringArray points) in
  geoToDegrees m.

(** ** Sums of distances *)

Definition _sumRadianDistance (fromPoint : Ilatlng) (toPoints : list Ilatlngxyz) : R :=
  fold_left (fun result (toPoint : Ilatlngxyz) =>
               result + radianDistance fromPoint toPoint)
            toPoints 0.

(** [avgDist] is [totalDist / toPoints.length]; on an empty list the source
    divides by zero, which the reals do not model. *)
Definition distanceToPointList (self : PlasticGeoDistance) (fromPoint : Ilatlng)
  (toPoints : list Ilatlng) : IdistanceCenterResult :=
  let fp := geoToRadians fromPoint in
  let pCA := _toCenteringArray toPoints in
  let result :=
    {| point := fromPoint;
       avgDist := 0;
       totalDist :=
         _sumRadianDistance
           {| latlng := {| lat := lat fp; lng := lng fp |}; x := 0; y := 0; z := 0 |}
           pCA |} in
  let result :=
    {| point := geoToDegrees (point result);
       avgDist := avgDist result; totalDist := totalDist result |} in
  let result :=
    {| point := point result;
       avgDist := avgDist result;
       totalDist := totalDist result * _earthRadius self |} in
  {| point := point result;
     avgDist := totalDist result / INR (List.length toPoints);
     totalDist := totalDist result |}.

(** ** Destination point *)

Definition _destinationPointRadians (start : Ilatlng) (bearing distance : R) : Ilatlng :=
  let lat0 :=
    Math.asin (Math.sin (lat start) * Math.cos distance +
               Math.cos (lat start) * Math.sin distance * Math.cos bearing) in
  let lng0 :=
    lng start +
    Math.atan2 (Math.sin bearing * Math.sin distance * Math.cos (lat start))
               (Math.cos distance - Math.sin (lat start) * Math.sin lat0) in
  let '(lat1, lng1) :=
    if Rgt_b (Math.abs lat0) (Math.PI / 2) then
      (Math.PI - lat0 - 2 * Math.PI * (if Rlt_b lat0 (- Math.PI / 2) then 1 else 0),
       lng0 - Math.PI)
    else (lat0, lng0) in
  let lng2 :=
    if Rgt_b lng1 Math.PI then lng1 - 2 * Math.PI
    else if Rlt_b lng1 (- Math.PI) then lng1 + 2 * Math.PI
    else lng1 in
  {| lat := lat1; lng := lng2 |}.

(** ** Metered runs

    A run threads a meter and may exhaust its iteration budget ([None]). *)

Record meter : Type := mkMeter {
  sumEvals : nat;   (* calls of [_sumRadianDistance] *)
  distEvals : nat   (* calls of [radianDistance] *)
}.

Definition Run (A : Type) : Type := meter -> option (A * meter).

Definition ret {A : Type} (a : A) : Run A := fun m => Some (a, m).

Definition bind {A B : Type} (c : Run A) (k : A -> Run B) : Run B :=
  fun m => match c m with
           | Some (a, m') => k a m'
           | None => None
           end.

Definition outOfBudget {A : Type} : Run A := fun _ => None.

Notation "x <- c ;; k" := (bind c (fun x => k))
  (at level 61, c at next level, right associativity).

(** One call of [_sumRadianDistance]: its loop calls [radianDistance] once
    for every element of [toPoints]. *)
Definition sumRadianDistanceM (fromPoint : Ilatlng) (toPoints : list Ilatlngxyz)
  : Run R :=
  fun m => Some (_sumRadianDistance fromPoint toPoints,
                 {| sumEvals := S (sumEvals m);
                    distEvals := distEvals m + List.length toPoints |}).

(** ** Candidate testing *)

Fixpoint testCandidates (candidates points : list Ilatlngxyz)
  (result : IdistanceCenterResult) : Run IdistanceCenterResult :=
  match candidates with
  | [] => ret result
  | cp :: rest =>
      dist <- sumRadianDistanceM cp points ;;
      testCandidates rest points
        (if Rlt_b dist (totalDist result)
         then {| point := {| lat := lat cp; lng := lng cp |};
                 avgDist := avgDist result;
                 totalDist := dist |}
         else result)
  end.

Definition _testCandidateCenterPoints (candidates points : list Ilatlngxyz)
  (existingBest : IdistanceCenterResult) : Run IdistanceCenterResult :=
  let result :=
    {| point := {| lat := lat (point existingBest); lng := lng (point existingBest) |};
       avgDist := avgDist existingBest;
       totalDist := totalDist existingBest |} in
  testCandidates candidates points result.

(** ** Minimum-total-distance point *)

(** The eight candidates of one ring. *)
Definition ringCandidates (currentBest : IdistanceCenterResult) (testRadius : R)
  : list Ilatlngxyz :=
  map (fun i =>
         let dp := _destinationPointRadians (point currentBest)
                     (Math.PI / 4 * INR i) testRadius in
         {| latlng := {| lat := lat dp; lng := lng dp |}; x := 0; y := 0; z := 0 |})
      (seq 0 8).

(** [while (currentBest.totalDist < cbd) { ... }]; [budget] bounds the
    number of times the body runs. *)
Fixpoint ringWhile (budget : nat) (pCA : list Ilatlngxyz) (testRadius : R)
  (currentBest : IdistanceCenterResult) (cbd : R) : Run IdistanceCenterResult :=
  if Rlt_b (totalDist currentBest) cbd then
    match budget with
    | O => outOfBudget
    | S budget' =>
        let candidatePts := ringCandidates currentBest testRadius in
        let cbd := totalDist currentBest in
        currentBest <- _testCandidateCenterPoints candidatePts pCA currentBest ;;
        ringWhile budget' pCA testRadius currentBest cbd
    end
  else ret currentBest.

(** [for (let r = 0; r < 17; r++) { ... }], with [n] the iterations left. *)
Fixpoint radiusFor (n : nat) (budget : nat) (pCA : list Ilatlngxyz) (testRadius : R)
  (currentBest : IdistanceCenterResult) : Run IdistanceCenterResult :=
  match n with
  | O => ret currentBest
  | S n' =>
      let cbd := 200000 + totalDist currentBest in
      currentBest <- ringWhile budget pCA testRadius currentBest cbd ;;
      radiusFor n' budget pCA (testRadius / 2) currentBest
  end.

Definition computeMinimumDistancePoint (self : PlasticGeoDistance) (budget : nat)
  (points : list Ilatlng) : Run IdistanceCenterResult :=
  let result := {| point := {| lat := 0; lng := 0 |}; avgDist := 0; totalDist := 0 |} in
  match points with
  | [] => ret result
  | [p0] =>
      ret {| point := {| lat := lat p0; lng := lng p0 |};
             avgDist := avgDist result; totalDist := totalDist result |}
  | _ =>
      let pCA := _toCenteringArray points in
      let midPt := _computeAverageCoordinates pCA in
      s <- sumRadianDistanceM midPt pCA ;;
      let currentBest := {| point := midPt; avgDist := 0; totalDist := s |} in
      currentBest <- _testCandidateCenterPoints pCA pCA currentBest ;;
      currentBest <- radiusFor 17 budget pCA (Math.PI / 2) currentBest ;;
      let totalDist' := totalDist currentBest * _earthRadius self in
      ret {| point := geoToDegrees (point currentBest);
             avgDist := totalDist' / INR (List.length points);
             totalDist := totalDist' |}
  end.

Definition meter0 : meter := {| sumEvals := 0; distEvals := 0 |}.

(** ** Notions used by the statements *)



(** The cosine of the central angle between two points given in radians:
    the scalar product of their unit vectors. *)
Definition cosAngle (pA pB : Ilatlng) : R :=
  sin (lat pA) * sin (lat pB) +
  cos (lat pA) * cos (lat pB) * cos (lng pB - lng pA).


(** A kite of four points around (0, 0), and the latitude of its midpoint
    in radians. *)
Definition kite : list Ilatlng :=
  [ {| lat := 0; lng := -45 |}; {| lat := 0; lng := 45 |};
    {| lat := 90; lng := 0 |}; {| lat := -45; lng := 0 |} ].

Definition kite_g : R := atan ((1 - cos (PI / 4)) / (3 * cos (PI / 4))).




(** * Properties *)

(** ** Comparisons and constants *)

Lemma Rlt_b_true (a b : R) : Rlt_b a b = true <-> a < b.
Proof. unfold Rlt_b; destruct (Rlt_dec a b); split; intros; try easy; lra. Qed.

Lemma Rle_b_true (a b : R) : Rle_b a b = true <-> a <= b.
Proof. unfold Rle_b; destruct (Rle_dec a b); split; intros; try easy; lra. Qed.

Lemma Rgt_b_true (a b : R) : Rgt_b a b = true <-> a > b.
Proof. unfold Rgt_b; destruct (Rgt_dec a b); split; intros; try easy; lra. Qed.

Lemma Rge_b_true (a b : R) : Rge_b a b = true <-> a >= b.
Proof. unfold Rge_b; destruct (Rge_dec a b); split; intros; try easy; lra. Qed.

Lemma Rlt_b_false (a b : R) : Rlt_b a b = false <-> b <= a.
Proof. unfold Rlt_b; destruct (Rlt_dec a b); split; intros; try easy; lra. Qed.

Lemma Rgt_b_false (a b : R) : Rgt_b a b = false <-> a <= b.
Proof. unfold Rgt_b; destruct (Rgt_dec a b); split; intros; try easy; lra. Qed.

Lemma Rle_b_false (a b : R) : Rle_b a b = false <-> b < a.
Proof. unfold Rle_b; destruct (Rle_dec a b); split; intros; try easy; lra. Qed.

Lemma PI_pos : 0 < Math.PI.
Proof. exact PI_RGT_0. Qed.

Lemma PI_bounds : 3 < Math.PI <= 4.
Proof.
  split; [ | exact PI_4 ].
  unfold Math.PI. generalize PI2_3_2. lra.
Qed.

Lemma toDegrees_toRadians (d : R) : toDegrees (toRadians d) = d.
Proof.
  unfold toDegrees, toRadians. generalize PI_pos; intro Hpi.
  field. lra.
Qed.




Lemma toDegrees_lt (a b : R) : a < b -> toDegrees a < toDegrees b.
Proof.
  intro H. unfold toDegrees. generalize PI_pos; intro Hpi.
  apply Rmult_lt_compat_r; [ now apply Rinv_0_lt_compat | lra ].
Qed.


Lemma toDegrees_scaled (v : R) : v <> 0 -> toDegrees v <> v.
Proof.
  intros Hv Heq. unfold toDegrees in Heq.
  destruct PI_bounds as [Hlo Hhi].
  assert (Hpi : Math.PI <> 0) by lra.
  assert (H : v * 180 = v * Math.PI).
  { rewrite <- Heq at 2. field. exact Hpi. }
  assert (H2 : v * (180 - Math.PI) = 0) by lra.
  apply Rmult_integral in H2. destruct H2; lra.
Qed.

(** ** Unit selection (C8) *)


Lemma constructor_units_cases (units : option string) :
  (_units (constructor units) = "K"%string /\ _earthRadius (constructor units) = 6371) \/
  (_units (constructor units) = "M"%string /\
   _earthRadius (constructor units) = 3958756 / 1000).
Proof.
  unfold constructor; simpl.
  destruct units as [s|]; simpl; [ | now right ].
  destruct (negb (String.eqb s "")); [ | now right ].
  destruct (String.eqb (substring 0 1 (toUpperCase s)) "K"); simpl; auto.
Qed.

Lemma distance_unfold (self : PlasticGeoDistance) (a b : Ilatlng) :
  distance self a b =
  _earthRadius self * radianDistance (geoToRadians a) (geoToRadians b).
Proof. reflexivity. Qed.


Example constructor_lowercase_k :
  _earthRadius (constructor (Some "kilometers"%string)) = 6371.
Proof. reflexivity. Qed.

Example constructor_miles :
  _earthRadius (constructor (Some "Miles"%string)) = 3958756 / 1000.
Proof. reflexivity. Qed.

Example constructor_empty :
  _units (constructor (Some ""%string)) = "M"%string /\
  _units (constructor None) = "M"%string.
Proof. split; reflexivity. Qed.

(** ** Containment test (C6) *)

Lemma isInBounds_iff (p : Ilatlng) (b : Ibounds) :
  isInBounds p b = true <->
  (minLat b <= lat p <= maxLat b) /\
  ((minLng b > maxLng b /\ (lng p >= minLng b \/ lng p <= maxLng b)) \/
   (~ minLng b > maxLng b /\ minLng b <= lng p <= maxLng b)).
Proof.
  unfold isInBounds.
  rewrite !andb_true_iff, Rge_b_true, Rle_b_true.
  destruct (Rgt_b (minLng b) (maxLng b)) eqn:E.
  - apply Rgt_b_true in E.
    rewrite orb_true_iff, Rge_b_true, Rle_b_true.
    split.
    + intros [[H1 H2] H3]. split; [ lra | left; split; [ lra | exact H3 ] ].
    + intros [[H1 H2] [[_ H3] | [H3 _]]]; [ | contradiction ].
      split; [ split; lra | exact H3 ].
  - apply Rgt_b_false in E.
    rewrite andb_true_iff, Rge_b_true, Rle_b_true.
    split.
    + intros [[H1 H2] [H3 H4]]. split; [ lra | right; split; lra ].
    + intros [[H1 H2] [[H3 _] | [_ [H3 H4]]]]; [ lra | ].
      split; split; lra.
Qed.

(** C6: [isInBounds p b] is true exactly when the latitude of [p] lies in
    [[minLat, maxLat]] and the longitude condition holds: [lng >= minLng] or
    [lng <= maxLng] when [minLng > maxLng] (a rectangle that wraps the
    antimeridian), and [minLng <= lng <= maxLng] otherwise. *)
Theorem C6_isInBounds_spec (p : Ilatlng) (b : Ibounds) :
  isInBounds p b = true <->
  (minLat b <= lat p <= maxLat b) /\
  ((minLng b > maxLng b /\ (lng p >= minLng b \/ lng p <= maxLng b)) \/
   (~ minLng b > maxLng b /\ minLng b <= lng p <= maxLng b)).
Proof.
  unfold isInBounds, Rge_b, Rle_b, Rgt_b.
  destruct (Rge_dec (lat p) (minLat b)) as [L1 | L1];
    destruct (Rle_dec (lat p) (maxLat b)) as [L2 | L2];
    destruct (Rgt_dec (minLng b) (maxLng b)) as [W | W];
    destruct (Rge_dec (lng p) (minLng b)) as [G1 | G1];
    destruct (Rle_dec (lng p) (maxLng b)) as [G2 | G2];
    cbn [andb orb];
    (split;
     [ intro H; try discriminate H;
       (split; [ lra | ]);
       first [ left; split; [ exact W | first [ left; lra | right; lra ] ]
             | right; split; [ exact W | lra ] ]
     | intros [[H1 H2] [[H3 [H4 | H4]] | [H3 [H4 H5]]]];
       first [ reflexivity | lra | contradiction ] ]).
Qed.

Example isInBounds_wrapping :
  isInBounds {| lat := 0; lng := -179 |}
             {| minLat := -1; minLng := 170; maxLat := 1; maxLng := -170 |} = true /\
  isInBounds {| lat := 0; lng := 0 |}
             {| minLat := -1; minLng := 170; maxLat := 1; maxLng := -170 |} = false.
Proof.
  split.
  - apply isInBounds_iff; simpl. split; [ lra | left; split; [ lra | right; lra ] ].
  - destruct (isInBounds _ _) eqn:E; [ | reflexivity ].
    apply isInBounds_iff in E; simpl in E.
    destruct E as [_ [[_ [H | H]] | [H _]]]; lra.
Qed.

(** ** Symmetry of the distance (C7) *)

Lemma haversine_a_sym (pA pB : Ilatlng) : haversine_a pA pB = haversine_a pB pA.
Proof.
  unfold haversine_a, Math.sin, Math.cos; cbv zeta.
  replace ((lat pA - lat pB) / 2) with (- ((lat pB - lat pA) / 2)) by lra.
  replace ((lng pA - lng pB) / 2) with (- ((lng pB - lng pA) / 2)) by lra.
  rewrite !sin_neg. ring.
Qed.

Lemma radianDistance_sym (pA pB : Ilatlng) :
  radianDistance pA pB = radianDistance pB pA.
Proof. unfold radianDistance. now rewrite (haversine_a_sym pA pB). Qed.

(** C7: on any engine instance, [distance a b = distance b a]. *)
Theorem C7_distance_symmetric (self : PlasticGeoDistance) (a b : Ilatlng) :
  distance self a b = distance self b a.
Proof.
  rewrite !distance_unfold.
  now rewrite (radianDistance_sym (geoToRadians a) (geoToRadians b)).
Qed.

(** ** Midpoint of the empty list (C10) *)

(** C10: [computeMidpoint] of the empty list is [{lat: 0, lng: 0}]: the
    averaging step skips its division and returns the zero vector as it is,
    and the degree conversion maps it to (0, 0). *)
Theorem C10_computeMidpoint_empty :
  _computeAverageCoordinates (_toCenteringArray []) = zero_xyz /\
  computeMidpoint [] = {| lat := 0; lng := 0 |}.
Proof.
  split; [ reflexivity | ].
  unfold computeMidpoint, geoToDegrees, toDegrees; simpl.
  f_equal; unfold Rdiv; ring.
Qed.

(** ** Degenerate inputs of the search (C3) *)

(** C3: on the empty list the search returns the zero point with zero
    distances, on a one-element list it returns that element with zero
    distances; in both cases for any budget, and with the meter untouched:
    no distance sum and no distance is computed. *)
Theorem C3_computeMinimumDistancePoint_degenerate
  (self : PlasticGeoDistance) (budget : nat) (m : meter) (p : Ilatlng) :
  computeMinimumDistancePoint self budget [] m =
    Some ({| point := {| lat := 0; lng := 0 |}; avgDist := 0; totalDist := 0 |}, m) /\
  computeMinimumDistancePoint self budget [p] m =
    Some ({| point := p; avgDist := 0; totalDist := 0 |}, m).
Proof.
  split; [ reflexivity | ].
  destruct p as [a b]. reflexivity.
Qed.

(** ** [distanceToPointList] converts its degree point once more (C9) *)

(** C9: for a non-empty [toPoints], the point of the result is
    [{lat: fromPoint.lat * 180 / PI, lng: fromPoint.lng * 180 / PI}], which
    differs from [fromPoint] as soon as one coordinate is not zero. *)
Theorem C9_distanceToPointList_point
  (self : PlasticGeoDistance) (fromPoint : Ilatlng) (toPoints : list Ilatlng) :
  toPoints <> [] ->
  point (distanceToPointList self fromPoint toPoints) =
    {| lat := lat fromPoint * 180 / Math.PI; lng := lng fromPoint * 180 / Math.PI |} /\
  ((lat fromPoint <> 0 \/ lng fromPoint <> 0) ->
   point (distanceToPointList self fromPoint toPoints) <> fromPoint).
Proof.
  intros _. split; [ reflexivity | ].
  intros Hnz Heq. unfold distanceToPointList in Heq; simpl in Heq.
  destruct fromPoint as [a b]; unfold geoToDegrees in Heq; simpl in *.
  injection Heq as Ha Hb.
  destruct Hnz as [H | H]; [ exact (toDegrees_scaled a H Ha) | exact (toDegrees_scaled b H Hb) ].
Qed.

Lemma C9_distanceToPointList_point_witness :
  point (distanceToPointList (constructor None) {| lat := 45; lng := 0 |}
           [ {| lat := 1; lng := 2 |} ]) =
    {| lat := 45 * 180 / Math.PI; lng := 0 * 180 / Math.PI |} /\
  ((45 <> 0 \/ 0 <> 0) ->
   point (distanceToPointList (constructor None) {| lat := 45; lng := 0 |}
            [ {| lat := 1; lng := 2 |} ]) <> {| lat := 45; lng := 0 |}).
Proof.
  apply (C9_distanceToPointList_point (constructor None) {| lat := 45; lng := 0 |}
           [ {| lat := 1; lng := 2 |} ]).
  discriminate.
Defined.

(** ** The degenerate rectangle of [bounds] (C2) *)

Lemma bounds_degenerate (self : PlasticGeoDistance) (radius : number) (c : Ilatlng) :
  isNaN radius = true \/ (exists r, radius = Num r /\ r <= 0) ->
  bounds self radius c =
    {| minLat := toRadians (lat c); minLng := toRadians (lng c);
       maxLat := toRadians (lat c); maxLng := toRadians (lng c) |}.
Proof.
  intros [H | (r & -> & Hr)]; unfold bounds; cbv zeta.
  - now rewrite H.
  - simpl. apply Rle_b_true in Hr. now rewrite Hr.
Qed.

(** C2: at radius 0, at NaN and at a negative radius around the center
    (90, 180), [bounds] returns the center in radians, (PI/2, PI) on all
    four edges, and not the center (90, 180) in degrees. *)
Theorem C2_bounds_degenerate_is_in_radians :
  Forall
    (fun radius =>
       let b := bounds (constructor (Some "K"%string)) radius
                       {| lat := 90; lng := 180 |} in
       minLat b = Math.PI / 2 /\ maxLat b = Math.PI / 2 /\
       minLng b = Math.PI /\ maxLng b = Math.PI /\
       minLat b <> 90 /\ maxLat b <> 90 /\ minLng b <> 180 /\ maxLng b <> 180)
    [Num 0; NaN; Num (-1)].
Proof.
  assert (H : forall radius,
             isNaN radius = true \/ (exists r, radius = Num r /\ r <= 0) ->
             let b := bounds (constructor (Some "K"%string)) radius
                             {| lat := 90; lng := 180 |} in
             minLat b = Math.PI / 2 /\ maxLat b = Math.PI / 2 /\
             minLng b = Math.PI /\ maxLng b = Math.PI /\
             minLat b <> 90 /\ maxLat b <> 90 /\ minLng b <> 180 /\ maxLng b <> 180).
  { intros radius Hr b. subst b. rewrite (bounds_degenerate _ _ _ Hr); simpl.
    unfold toRadians. destruct PI_bounds as [Hlo Hhi]. repeat split; lra. }
  apply Forall_cons; [ | apply Forall_cons; [ | apply Forall_cons; [ | apply Forall_nil ] ] ];
    apply H.
  - right. exists 0. split; [ reflexivity | lra ].
  - now left.
  - right. exists (-1). split; [ reflexivity | lra ].
Qed.

(** ** The center lies in its own rectangle (C5) *)

Lemma earthRadius_pos (units : option string) : 0 < _earthRadius (constructor units).
Proof.
  destruct (constructor_units_cases units) as [[_ ->] | [_ ->]]; lra.
Qed.






Lemma atan_nonneg (v : R) : 0 <= v -> 0 <= atan v.
Proof.
  intros [H | <-]; [ | rewrite atan_0; lra ].
  left. rewrite <- atan_0. now apply atan_increasing.
Qed.






(** ** The idealised functions stay inside their domains

    [Math.sqrt] and [Math.asin] of the library are total; the three lemmas
    below show that the source only applies them, where the result is used,
    to arguments on which they are the mathematical functions. *)

Lemma unit_dot_bound (sA cA sB cB u : R) :
  sA * sA + cA * cA = 1 ->
  sB * sB + cB * cB = 1 ->
  -1 <= u <= 1 ->
  -1 <= sA * sB + cA * cB * u <= 1.
Proof.
  intros HA HB Hu.
  pose proof (Rle_0_sqr (sA - sB)) as Q1.
  pose proof (Rle_0_sqr (sA + sB)) as Q2.
  pose proof (Rle_0_sqr (cA - cB)) as Q3.
  pose proof (Rle_0_sqr (cA + cB)) as Q4.
  unfold Rsqr in *.
  assert (H1 : 0 <= 1 - (sA * sB + cA * cB)) by lra.
  assert (H2 : 0 <= 1 - (sA * sB - cA * cB)) by lra.
  assert (H3 : 0 <= 1 + (sA * sB + cA * cB)) by lra.
  assert (H4 : 0 <= 1 + (sA * sB - cA * cB)) by lra.
  clear Q1 Q2 Q3 Q4 HA HB.
  split; nra.
Qed.

Lemma sin_cos_unit (v : R) : sin v * sin v + cos v * cos v = 1.
Proof. generalize (sin2_cos2 v). unfold Rsqr. tauto. Qed.

Lemma sin_half_sqr (v : R) : sin (v / 2) * sin (v / 2) = (1 - cos v) / 2.
Proof.
  replace v with (2 * (v / 2)) at 3 by field.
  rewrite cos_2a_sin. field.
Qed.




(** ** The haversine formula is the central angle

    [radianDistance] is the arc cosine of the scalar product of the two
    unit vectors, and it satisfies the triangle inequality. *)

Lemma cosAngle_range (pA pB : Ilatlng) : -1 <= cosAngle pA pB <= 1.
Proof.
  unfold cosAngle.
  apply unit_dot_bound; try apply sin_cos_unit.
  apply COS_bound.
Qed.

Lemma haversine_a_cosAngle (pA pB : Ilatlng) :
  haversine_a pA pB = (1 - cosAngle pA pB) / 2.
Proof.
  unfold haversine_a, cosAngle, Math.sin, Math.cos; cbv zeta.
  rewrite (Rmult_assoc (cos (lat pA) * cos (lat pB))).
  rewrite !sin_half_sqr, cos_minus. field.
Qed.

Lemma atan2_sin_cos (h : R) :
  0 <= h <= PI / 2 -> Math.atan2 (sin h) (cos h) = h.
Proof.
  intros [H0 H1]. unfold Math.atan2.
  destruct (Rle_lt_or_eq_dec _ _ H1) as [Hlt | Heq].
  - assert (Hc : 0 < cos h) by (apply cos_gt_0; lra).
    destruct (Rlt_dec 0 (cos h)); [ | contradiction ].
    change (sin h / cos h) with (tan h). apply atan_tan. lra.
  - subst h. rewrite cos_PI2, sin_PI2.
    destruct (Rlt_dec 0 0); [ lra | ].
    destruct (Rlt_dec 0 1); [ reflexivity | lra ].
Qed.

(** The haversine formula computes the central angle. *)
Lemma radianDistance_acos (pA pB : Ilatlng) :
  radianDistance pA pB = acos (cosAngle pA pB).
Proof.
  unfold radianDistance; cbv zeta. rewrite haversine_a_cosAngle.
  pose proof (cosAngle_range pA pB) as HX.
  pose proof (acos_bound (cosAngle pA pB)) as Hd.
  set (d := acos (cosAngle pA pB)) in *.
  assert (HX' : cosAngle pA pB = cos d) by (subst d; now rewrite cos_acos).
  rewrite HX'.
  assert (Hs : (1 - cos d) / 2 = sin (d / 2) * sin (d / 2))
    by now rewrite sin_half_sqr.
  assert (Hc : 1 - (1 - cos d) / 2 = cos (d / 2) * cos (d / 2)).
  { rewrite Hs. pose proof (sin_cos_unit (d / 2)). lra. }
  rewrite Hc, Hs. unfold Math.sqrt.
  assert (Hh : 0 <= d / 2 <= PI / 2) by lra.
  rewrite !sqrt_square.
  - rewrite atan2_sin_cos by exact Hh. field.
  - apply cos_ge_0; lra.
  - apply sin_ge_0; lra.
Qed.






(** ** Distances are not negative *)

Lemma atan2_nonneg (v u : R) : 0 <= v -> 0 <= Math.atan2 v u.
Proof.
  intro Hv. unfold Math.atan2.
  pose proof PI_pos as Hpi.
  destruct (Rlt_dec 0 u) as [Hu | Hu].
  - apply atan_nonneg. apply Rmult_le_pos; [ exact Hv | ].
    left. now apply Rinv_0_lt_compat.
  - destruct (Rlt_dec u 0) as [Hu' | Hu'].
    + destruct (Rle_dec 0 v); [ | contradiction ].
      pose proof (atan_bound (v / u)) as Hb. unfold Math.PI in *. lra.
    + destruct (Rlt_dec 0 v); [ lra | ].
      destruct (Rlt_dec v 0); lra.
Qed.

Lemma radianDistance_nonneg (pA pB : Ilatlng) : 0 <= radianDistance pA pB.
Proof.
  unfold radianDistance; cbv zeta.
  pose proof (atan2_nonneg (Math.sqrt (haversine_a pA pB))
                           (Math.sqrt (1 - haversine_a pA pB))
                           (sqrt_pos _)).
  lra.
Qed.

Lemma sum_fold_nonneg (fromPoint : Ilatlng) (toPoints : list Ilatlngxyz) (acc : R) :
  0 <= acc ->
  0 <= fold_left (fun result (toPoint : Ilatlngxyz) =>
                    result + radianDistance fromPoint toPoint) toPoints acc.
Proof.
  revert acc. induction toPoints as [|tp rest IH]; intros acc Hacc; simpl.
  - exact Hacc.
  - apply IH. pose proof (radianDistance_nonneg fromPoint tp). lra.
Qed.

Lemma _sumRadianDistance_nonneg (fromPoint : Ilatlng) (toPoints : list Ilatlngxyz) :
  0 <= _sumRadianDistance fromPoint toPoints.
Proof. apply sum_fold_nonneg. lra. Qed.

(** ** The search never raises its total *)

Lemma bind_Some {A B : Type} (c : Run A) (k : A -> Run B) (m : meter) (r : B * meter) :
  bind c k m = Some r ->
  exists a m1, c m = Some (a, m1) /\ k a m1 = Some r.
Proof.
  unfold bind. destruct (c m) as [[a m1]|]; [ | discriminate ].
  intro H. now exists a, m1.
Qed.

(** What one pass over the candidates guarantees: it always returns, the
    total does not grow and stays non-negative, and the meter advances by
    one sum per candidate. *)
Lemma testCandidates_spec (candidates points : list Ilatlngxyz)
  (result : IdistanceCenterResult) (m : meter) :
  exists result',
    testCandidates candidates points result m =
      Some (result',
            {| sumEvals := sumEvals m + List.length candidates;
               distEvals := distEvals m +
                            List.length candidates * List.length points |}) /\
    totalDist result' <= totalDist result /\
    (0 <= totalDist result -> 0 <= totalDist result').
Proof.
  revert result m. induction candidates as [|cp rest IH]; intros result m.
  - exists result. simpl. unfold ret. destruct m as [s d]; simpl.
    rewrite !Nat.add_0_r. repeat split; [ lra | tauto ].
  - simpl. unfold bind, sumRadianDistanceM.
    set (dist := _sumRadianDistance cp points).
    set (next := if Rlt_b dist (totalDist result) then _ else result).
    destruct (IH next {| sumEvals := S (sumEvals m);
                         distEvals := distEvals m + List.length points |})
      as (result' & Hrun & Hle & Hpos).
    exists result'. split; [ | split ].
    + rewrite Hrun. simpl. do 2 f_equal. f_equal; lia.
    + subst next. destruct (Rlt_b dist (totalDist result)) eqn:E; [ | exact Hle ].
      apply Rlt_b_true in E. simpl in Hle. lra.
    + intro H0. apply Hpos. subst next.
      destruct (Rlt_b dist (totalDist result)); [ | exact H0 ].
      simpl. apply _sumRadianDistance_nonneg.
Qed.

Lemma _testCandidateCenterPoints_spec (candidates points : list Ilatlngxyz)
  (existingBest : IdistanceCenterResult) (m : meter) :
  exists result',
    _testCandidateCenterPoints candidates points existingBest m =
      Some (result',
            {| sumEvals := sumEvals m + List.length candidates;
               distEvals := distEvals m +
                            List.length candidates * List.length points |}) /\
    totalDist result' <= totalDist existingBest /\
    (0 <= totalDist existingBest -> 0 <= totalDist result').
Proof.
  unfold _testCandidateCenterPoints; cbv zeta.
  apply (testCandidates_spec candidates points
           {| point := {| lat := lat (point existingBest);
                          lng := lng (point existingBest) |};
              avgDist := avgDist existingBest;
              totalDist := totalDist existingBest |} m).
Qed.

Lemma ringCandidates_length (currentBest : IdistanceCenterResult) (testRadius : R) :
  List.length (ringCandidates currentBest testRadius) = 8%nat.
Proof. reflexivity. Qed.

Lemma ringWhile_spec (pCA : list Ilatlngxyz) (testRadius : R) (budget : nat) :
  forall (currentBest : IdistanceCenterResult) (cbd : R) (m : meter)
         (res : IdistanceCenterResult) (m' : meter),
    ringWhile budget pCA testRadius currentBest cbd m = Some (res, m') ->
    totalDist res <= totalDist currentBest /\
    (0 <= totalDist currentBest -> 0 <= totalDist res) /\
    (sumEvals m <= sumEvals m')%nat.
Proof.
  induction budget as [|budget IH]; intros currentBest cbd m res m' Hrun;
    simpl in Hrun; destruct (Rlt_b (totalDist currentBest) cbd).
  - discriminate.
  - injection Hrun as <- <-. repeat split; [ lra | tauto | lia ].
  - apply bind_Some in Hrun. destruct Hrun as (cb1 & m1 & Htest & Hrest).
    destruct (_testCandidateCenterPoints_spec
                (ringCandidates currentBest testRadius) pCA currentBest m)
      as (cb1' & Htest' & Hle & Hpos).
    rewrite Htest' in Htest. injection Htest as <- <-.
    apply IH in Hrest. destruct Hrest as (Hle2 & Hpos2 & Hm). simpl in Hm.
    repeat split; [ lra | tauto | lia ].
  - injection Hrun as <- <-. repeat split; [ lra | tauto | lia ].
Qed.

Lemma radiusFor_spec (pCA : list Ilatlngxyz) (budget : nat) (n : nat) :
  forall (testRadius : R) (currentBest : IdistanceCenterResult) (m : meter)
         (res : IdistanceCenterResult) (m' : meter),
    radiusFor n budget pCA testRadius currentBest m = Some (res, m') ->
    totalDist res <= totalDist currentBest /\
    (0 <= totalDist currentBest -> 0 <= totalDist res) /\
    (sumEvals m <= sumEvals m')%nat.
Proof.
  induction n as [|n IH]; intros testRadius currentBest m res m' Hrun; simpl in Hrun.
  - injection Hrun as <- <-. repeat split; [ lra | tauto | lia ].
  - apply bind_Some in Hrun. destruct Hrun as (cb1 & m1 & Hring & Hrest).
    apply ringWhile_spec in Hring. destruct Hring as (Hle1 & Hpos1 & Hm1).
    apply IH in Hrest. destruct Hrest as (Hle2 & Hpos2 & Hm2).
    repeat split; [ lra | tauto | lia ].
Qed.

(** ** The budget does not change a result

    A run that returns with some budget returns the same result and the
    same meter with every larger budget. *)

Lemma bind_mono {A B : Type} (c c' : Run A) (k k' : A -> Run B) (m : meter)
  (r : B * meter) :
  (forall a, c m = Some a -> c' m = Some a) ->
  (forall a m1 r1, k a m1 = Some r1 -> k' a m1 = Some r1) ->
  bind c k m = Some r -> bind c' k' m = Some r.
Proof.
  intros Hc Hk H. apply bind_Some in H. destruct H as (a & m1 & H1 & H2).
  unfold bind. rewrite (Hc _ H1). now apply Hk.
Qed.

Lemma ringWhile_budget (pCA : list Ilatlngxyz) (testRadius : R) (budget : nat) :
  forall (budget' : nat) (currentBest : IdistanceCenterResult) (cbd : R)
         (m : meter) (r : IdistanceCenterResult * meter),
    (budget <= budget')%nat ->
    ringWhile budget pCA testRadius currentBest cbd m = Some r ->
    ringWhile budget' pCA testRadius currentBest cbd m = Some r.
Proof.
  induction budget as [|budget IH]; intros budget' currentBest cbd m r Hle Hrun.
  - simpl in Hrun. destruct budget'; simpl;
      destruct (Rlt_b (totalDist currentBest) cbd); try discriminate; exact Hrun.
  - destruct budget' as [|budget']; [ lia | ].
    simpl in Hrun |- *.
    destruct (Rlt_b (totalDist currentBest) cbd); [ | exact Hrun ].
    revert Hrun. apply bind_mono; [ auto | ].
    intros a m1 r1. apply IH. lia.
Qed.

Lemma radiusFor_budget (pCA : list Ilatlngxyz) (budget budget' : nat) (n : nat) :
  (budget <= budget')%nat ->
  forall (testRadius : R) (currentBest : IdistanceCenterResult) (m : meter)
         (r : IdistanceCenterResult * meter),
    radiusFor n budget pCA testRadius currentBest m = Some r ->
    radiusFor n budget' pCA testRadius currentBest m = Some r.
Proof.
  intro Hle. induction n as [|n IH]; intros testRadius currentBest m r Hrun.
  - exact Hrun.
  - cbn [radiusFor] in Hrun |- *. revert Hrun. apply bind_mono.
    + intro a. now apply ringWhile_budget.
    + intros a m1 r1. apply IH.
Qed.

Lemma search_budget (self : PlasticGeoDistance) (budget budget' : nat)
  (points : list Ilatlng) (m : meter) (r : IdistanceCenterResult * meter) :
  (budget <= budget')%nat ->
  computeMinimumDistancePoint self budget points m = Some r ->
  computeMinimumDistancePoint self budget' points m = Some r.
Proof.
  intros Hle Hrun.
  destruct points as [|p0 [|p1 rest]]; [ exact Hrun | exact Hrun | ].
  unfold computeMinimumDistancePoint in Hrun |- *; cbv zeta in Hrun |- *.
  revert Hrun. apply bind_mono; [ auto | ].
  intros s m1 r1. apply bind_mono; [ auto | ].
  intros cb1 m2 r2. apply bind_mono; [ | auto ].
  intro a. now apply radiusFor_budget.
Qed.

(** ** The search against the midpoint (C1) *)




(** ** Runs that return

    When an input point already attains a lower bound of the sum of
    distances, no ring can improve on the seed: the search returns with a
    budget of one pass per radius, after [1 + n + 17 * 8] distance sums.
    This is the case of every list of two points and of every list of
    coinciding points. *)

Lemma radianDistance_refl (q : Ilatlng) : radianDistance q q = 0.
Proof.
  unfold radianDistance, haversine_a, Math.atan2, Math.sqrt, Math.sin, Math.cos;
    cbv zeta.
  replace ((lat q - lat q) / 2) with 0 by lra.
  replace ((lng q - lng q) / 2) with 0 by lra.
  rewrite sin_0.
  replace (0 * 0 + cos (lat q) * cos (lat q) * 0 * 0) with 0 by ring.
  rewrite Rminus_0_r, sqrt_0, sqrt_1.
  destruct (Rlt_dec 0 1); [ | lra ].
  replace (0 / 1) with 0 by lra. rewrite atan_0. ring.
Qed.

Lemma sum_fold_zero (q : Ilatlng) (toPoints : list Ilatlngxyz) (acc : R) :
  (forall tp : Ilatlngxyz, In tp toPoints -> radianDistance q tp = 0) ->
  fold_left (fun result (toPoint : Ilatlngxyz) => result + radianDistance q toPoint)
            toPoints acc = acc.
Proof.
  revert acc. induction toPoints as [|tp rest IH]; intros acc H; simpl.
  - reflexivity.
  - rewrite IH by (intros; apply H; now right).
    rewrite (H tp) by now left. ring.
Qed.

Lemma testCandidates_best (candidates points : list Ilatlngxyz) :
  forall (result result' : IdistanceCenterResult) (m m' : meter),
    testCandidates candidates points result m = Some (result', m') ->
    forall cp, In cp candidates -> totalDist result' <= _sumRadianDistance cp points.
Proof.
  induction candidates as [|c rest IH]; intros result result' m m' Hrun cp Hin.
  - destruct Hin.
  - simpl in Hrun. apply bind_Some in Hrun.
    destruct Hrun as (dist & m1 & Hd & Hrest).
    unfold sumRadianDistanceM in Hd. injection Hd as <- <-.
    destruct Hin as [<- | Hin]; [ | exact (IH _ _ _ _ Hrest cp Hin) ].
    match type of Hrest with
    | testCandidates ?r ?pts ?nx ?mm = _ =>
        destruct (testCandidates_spec r pts nx mm) as (r' & Hr' & Hle & _)
    end.
    rewrite Hr' in Hrest. injection Hrest as <- _.
    destruct (Rlt_b (_sumRadianDistance c points) (totalDist result)) eqn:E;
      simpl in Hle; [ exact Hle | ].
    apply Rlt_b_false in E. lra.
Qed.

Section AtMinimum.

Variable pCA : list Ilatlngxyz.
Variable L : R.
Hypothesis L_lower : forall q : Ilatlng, L <= _sumRadianDistance q pCA.

Lemma testCandidates_lower (candidates : list Ilatlngxyz) :
  forall (result result' : IdistanceCenterResult) (m m' : meter),
    testCandidates candidates pCA result m = Some (result', m') ->
    L <= totalDist result -> L <= totalDist result'.
Proof.
  induction candidates as [|c rest IH]; intros result result' m m' Hrun HL.
  - simpl in Hrun. injection Hrun as <- _. exact HL.
  - simpl in Hrun. apply bind_Some in Hrun.
    destruct Hrun as (dist & m1 & Hd & Hrest).
    unfold sumRadianDistanceM in Hd. injection Hd as <- <-.
    apply IH in Hrest; [ exact Hrest | ].
    destruct (Rlt_b (_sumRadianDistance c pCA) (totalDist result));
      [ simpl; apply L_lower | exact HL ].
Qed.

Lemma ringWhile_at_minimum (testRadius : R)
  (currentBest : IdistanceCenterResult) (cbd : R) (m : meter) :
  totalDist currentBest = L ->
  L < cbd ->
  exists res,
    ringWhile 1 pCA testRadius currentBest cbd m =
      Some (res, {| sumEvals := sumEvals m + 8;
                    distEvals := distEvals m + 8 * List.length pCA |}) /\
    totalDist res = L.
Proof.
  intros H0 Hcbd. simpl.
  assert (E : Rlt_b (totalDist currentBest) cbd = true)
    by (apply Rlt_b_true; lra).
  rewrite E. unfold bind.
  destruct (_testCandidateCenterPoints_spec
              (ringCandidates currentBest testRadius) pCA currentBest m)
    as (cb1 & Hrun & Hle & _).
  pose proof Hrun as Hlow. unfold _testCandidateCenterPoints in Hlow.
  apply testCandidates_lower in Hlow; [ | simpl; lra ].
  rewrite Hrun, ringCandidates_length.
  assert (H1 : totalDist cb1 = L) by lra.
  assert (E2 : Rlt_b (totalDist cb1) (totalDist currentBest) = false)
    by (apply Rlt_b_false; lra).
  rewrite E2. exists cb1. split; [ reflexivity | exact H1 ].
Qed.

Lemma radiusFor_at_minimum (n : nat) :
  forall (testRadius : R) (currentBest : IdistanceCenterResult) (m : meter),
    totalDist currentBest = L ->
    exists res,
      radiusFor n 1 pCA testRadius currentBest m =
        Some (res, {| sumEvals := sumEvals m + n * 8;
                      distEvals := distEvals m + n * (8 * List.length pCA) |}) /\
      totalDist res = L.
Proof.
  induction n as [|n IH]; intros testRadius currentBest m H0.
  - exists currentBest. simpl. unfold ret. destruct m as [s d]; simpl.
    rewrite !Nat.add_0_r. now split.
  - cbn [radiusFor]. unfold bind at 1.
    destruct (ringWhile_at_minimum testRadius currentBest
                (200000 + totalDist currentBest) m H0) as (cb1 & Hrun & H1);
      [ lra | ].
    rewrite Hrun.
    destruct (IH (testRadius / 2) cb1
                {| sumEvals := sumEvals m + 8;
                   distEvals := distEvals m + 8 * List.length pCA |} H1)
      as (res & Hres & Hz).
    exists res. split; [ | exact Hz ].
    rewrite Hres. simpl. do 2 f_equal. f_equal; lia.
Qed.

End AtMinimum.

Lemma search_returns_at_minimum (self : PlasticGeoDistance)
  (p0 p1 : Ilatlng) (rest : list Ilatlng) (L : R) (c : Ilatlngxyz) (m : meter) :
  let points := p0 :: p1 :: rest in
  (forall q : Ilatlng, L <= _sumRadianDistance q (_toCenteringArray points)) ->
  In c (_toCenteringArray points) ->
  _sumRadianDistance c (_toCenteringArray points) = L ->
  exists res,
    computeMinimumDistancePoint self 1 points m =
      Some (res,
            {| sumEvals := sumEvals m + (1 + List.length points + 17 * 8);
               distEvals := distEvals m +
                            (1 + List.length points + 17 * 8) * List.length points |}) /\
    totalDist res = L * _earthRadius self.
Proof.
  intros points Hlow Hin Hc.
  unfold computeMinimumDistancePoint; cbv zeta. fold points.
  set (pCA := _toCenteringArray points) in *.
  set (midPt := _computeAverageCoordinates pCA).
  assert (Hlen : List.length pCA = List.length points)
    by (subst pCA; unfold _toCenteringArray; apply length_map).
  assert (Hpts : exists a b t, points = a :: b :: t) by (now exists p0, p1, rest).
  clearbody midPt. clearbody pCA. clearbody points.
  destruct Hpts as (a & b & t & ->).
  unfold bind at 1. unfold sumRadianDistanceM at 1.
  unfold bind at 1.
  match goal with
  | |- context [ _testCandidateCenterPoints pCA pCA ?e ?mm ] =>
      destruct (_testCandidateCenterPoints_spec pCA pCA e mm)
        as (cb1 & Hseed & _ & _);
      pose proof Hseed as Hbest
  end.
  rewrite Hseed.
  unfold _testCandidateCenterPoints in Hbest; cbv zeta in Hbest.
  assert (H1 : totalDist cb1 = L).
  { apply Rle_antisym.
    - rewrite <- Hc. eapply testCandidates_best; [ exact Hbest | exact Hin ].
    - eapply (testCandidates_lower pCA L Hlow); [ exact Hbest | ].
      simpl. apply Hlow. }
  unfold bind.
  match goal with
  | |- context [ radiusFor 17 1 pCA ?r cb1 ?mm ] =>
      destruct (radiusFor_at_minimum pCA L Hlow 17 r cb1 mm H1)
        as (cb2 & Hrings & H2)
  end.
  rewrite Hrings. unfold ret.
  eexists. split.
  - do 2 f_equal. cbn [sumEvals distEvals]. rewrite !Hlen. f_equal; lia.
  - cbn [totalDist]. rewrite H2. ring.
Qed.

(** Coinciding points: the total is 0. *)
Lemma search_returns_on_copies (units : option string) (p : Ilatlng) (k : nat)
  (m : meter) :
  exists res,
    computeMinimumDistancePoint (constructor units) 1 (p :: p :: repeat p k) m =
      Some (res, {| sumEvals := sumEvals m + (1 + (2 + k) + 17 * 8);
                    distEvals := distEvals m + (1 + (2 + k) + 17 * 8) * (2 + k) |}) /\
    totalDist res = 0.
Proof.
  set (c := {| latlng := {| lat := toRadians (lat p); lng := toRadians (lng p) |};
               x := Math.cos (toRadians (lat p)) * Math.cos (toRadians (lng p));
               y := Math.cos (toRadians (lat p)) * Math.sin (toRadians (lng p));
               z := Math.sin (toRadians (lat p)) |}).
  assert (HpCA : _toCenteringArray (p :: p :: repeat p k) = c :: c :: repeat c k).
  { subst c. unfold _toCenteringArray. simpl. now rewrite map_repeat. }
  destruct (search_returns_at_minimum (constructor units) p p (repeat p k) 0 c m)
    as (res & Hrun & Htot).
  - intro q. apply _sumRadianDistance_nonneg.
  - rewrite HpCA. now left.
  - unfold _sumRadianDistance. apply sum_fold_zero.
    intros tp Hin. rewrite HpCA in Hin.
    assert (tp = c) as ->.
    { destruct Hin as [<- | [<- | Hin]]; try reflexivity.
      now apply repeat_spec in Hin. }
    apply radianDistance_refl.
  - exists res. split; [ | rewrite Htot; ring ].
    rewrite Hrun. cbn [List.length]. rewrite repeat_length. reflexivity.
Qed.



(** ** Metering of the search (C4)

    A pass of the ring loop costs eight distance sums.  At one radius the
    loop makes one pass, and one more after every pass that lowered the
    total; the number of passes is decided by the data. *)

Lemma ringWhile_passes (pCA : list Ilatlngxyz) (testRadius : R) (budget : nat) :
  forall (currentBest : IdistanceCenterResult) (cbd : R) (m : meter)
         (res : IdistanceCenterResult) (m' : meter),
    ringWhile budget pCA testRadius currentBest cbd m = Some (res, m') ->
    exists k : nat,
      sumEvals m' = (sumEvals m + 8 * k)%nat /\
      distEvals m' = (distEvals m + 8 * k * List.length pCA)%nat /\
      ((k = 0%nat /\ ~ totalDist currentBest < cbd /\ res = currentBest) \/
       (k = 1%nat /\ totalDist currentBest < cbd /\
        totalDist res = totalDist currentBest) \/
       ((2 <= k)%nat /\ totalDist currentBest < cbd /\
        totalDist res < totalDist currentBest)).
Proof.
  induction budget as [|budget IH]; intros currentBest cbd m res m' Hrun;
    simpl in Hrun; destruct (Rlt_b (totalDist currentBest) cbd) eqn:E.
  - discriminate.
  - injection Hrun as <- <-. apply Rlt_b_false in E.
    exists 0%nat. repeat split; try lia. left. repeat split. lra.
  - apply Rlt_b_true in E.
    apply bind_Some in Hrun. destruct Hrun as (cb1 & m1 & Htest & Hrest).
    destruct (_testCandidateCenterPoints_spec
                (ringCandidates currentBest testRadius) pCA currentBest m)
      as (cb1' & Htest' & Hle & _).
    rewrite Htest' in Htest. injection Htest as <- <-.
    apply IH in Hrest. destruct Hrest as (k & Hs & Hd & Hk).
    cbn [sumEvals distEvals] in Hs, Hd.
    exists (S k). split; [ lia | split; [ lia | ] ].
    destruct Hk as [(-> & Hno & ->) | [(-> & Hlt & Heq) | (Hk & Hlt & Hlt')]].
    + right; left. repeat split; [ exact E | lra ].
    + right; right. repeat split; [ lia | exact E | lra ].
    + right; right. repeat split; [ lia | exact E | lra ].
  - injection Hrun as <- <-. apply Rlt_b_false in E.
    exists 0%nat. repeat split; try lia. left. repeat split. lra.
Qed.

Lemma radiusFor_passes (pCA : list Ilatlngxyz) (budget : nat) (n : nat) :
  forall (testRadius : R) (currentBest : IdistanceCenterResult) (m : meter)
         (res : IdistanceCenterResult) (m' : meter),
    radiusFor n budget pCA testRadius currentBest m = Some (res, m') ->
    exists P : nat,
      sumEvals m' = (sumEvals m + 8 * P)%nat /\
      distEvals m' = (distEvals m + 8 * P * List.length pCA)%nat /\
      ((P = n /\ totalDist res = totalDist currentBest) \/
       ((n < P)%nat /\ totalDist res < totalDist currentBest)).
Proof.
  induction n as [|n IH]; intros testRadius currentBest m res m' Hrun;
    cbn [radiusFor] in Hrun.
  - injection Hrun as <- <-. exists 0%nat. repeat split; try lia. now left.
  - apply bind_Some in Hrun. destruct Hrun as (cb1 & m1 & Hring & Hrest).
    apply ringWhile_passes in Hring. destruct Hring as (k & Hs1 & Hd1 & Hk).
    apply IH in Hrest. destruct Hrest as (P & Hs2 & Hd2 & HP).
    exists (k + P)%nat. split; [ lia | split; [ lia | ] ].
    destruct Hk as [(_ & Hno & _) | [(-> & _ & Heq) | (Hk & _ & Hlt)]].
    + exfalso. apply Hno. lra.
    + destruct HP as [(-> & Heq2) | (HP & Hlt2)].
      * left. split; [ lia | lra ].
      * right. split; [ lia | lra ].
    + right. destruct HP as [(-> & Heq2) | (HP & Hlt2)]; split; try lia; lra.
Qed.





(** ** The passes depend on the data: a kite

    The four points (0, -45), (0, 45), (90, 0), (-45, 0) form a kite around
    (0, 0).  Whatever point the seeding step keeps, one of the rings has a
    candidate nearer to (0, 0) with a smaller sum, so the ring loop makes
    more than 17 passes. *)

(** Where the result of a pass over the candidates comes from: it is the
    record the pass started with, or it carries the coordinates and the sum
    of one of the candidates. *)
Lemma testCandidates_origin (candidates points : list Ilatlngxyz) :
  forall (result result' : IdistanceCenterResult) (m m' : meter),
    testCandidates candidates points result m = Some (result', m') ->
    result' = result \/
    exists cp, In cp candidates /\
               point result' = {| lat := lat cp; lng := lng cp |} /\
               totalDist result' = _sumRadianDistance cp points /\
               totalDist result' < totalDist result.
Proof.
  induction candidates as [|c rest IH]; intros result result' m m' Hrun.
  - simpl in Hrun. injection Hrun as <- _. now left.
  - simpl in Hrun. apply bind_Some in Hrun.
    destruct Hrun as (dist & m1 & Hd & Hrest).
    unfold sumRadianDistanceM in Hd. injection Hd as <- <-.
    pose proof Hrest as Hrest'.
    apply IH in Hrest.
    destruct (Rlt_b (_sumRadianDistance c points) (totalDist result)) eqn:E.
    + apply Rlt_b_true in E. right.
      destruct Hrest as [-> | (cp & Hin & Hp & Ht & Hlt)].
      * exists c. simpl. repeat split; [ now left | exact E ].
      * exists cp. simpl in Hlt. repeat split; [ now right | exact Hp | exact Ht | lra ].
    + destruct Hrest as [-> | (cp & Hin & Hp & Ht & Hlt)]; [ now left | ].
      right. exists cp. repeat split; [ now right | exact Hp | exact Ht | exact Hlt ].
Qed.

Lemma result_eta (r : IdistanceCenterResult) :
  {| point := {| lat := lat (point r); lng := lng (point r) |};
     avgDist := avgDist r; totalDist := totalDist r |} = r.
Proof. destruct r as [[a b] c d]. reflexivity. Qed.

(** A ring loop that returns the total it started with has seen no
    candidate below that total, and returns the record it started with. *)
Lemma ringWhile_unchanged (pCA : list Ilatlngxyz) (testRadius : R) (budget : nat)
  (currentBest : IdistanceCenterResult) (cbd : R) (m : meter)
  (res : IdistanceCenterResult) (m' : meter) :
  ringWhile budget pCA testRadius currentBest cbd m = Some (res, m') ->
  totalDist currentBest < cbd ->
  totalDist res = totalDist currentBest ->
  res = currentBest /\
  forall cand, In cand (ringCandidates currentBest testRadius) ->
               totalDist currentBest <= _sumRadianDistance cand pCA.
Proof.
  intros Hrun Hcbd Heq.
  destruct budget as [|budget]; simpl in Hrun;
    (assert (E : Rlt_b (totalDist currentBest) cbd = true)
       by (apply Rlt_b_true; exact Hcbd));
    rewrite E in Hrun; [ discriminate | ].
  apply bind_Some in Hrun. destruct Hrun as (cb1 & m1 & Htest & Hrest).
  pose proof Htest as Hbest. pose proof Htest as Horigin.
  unfold _testCandidateCenterPoints in Hbest, Horigin.
  destruct (_testCandidateCenterPoints_spec
              (ringCandidates currentBest testRadius) pCA currentBest m)
    as (cb1' & Htest' & Hle1 & _).
  rewrite Htest' in Htest. injection Htest as -> _.
  pose proof (ringWhile_spec _ _ _ _ _ _ _ _ Hrest) as (Hle2 & _ & _).
  assert (H1 : totalDist cb1 = totalDist currentBest) by lra.
  apply testCandidates_origin in Horigin.
  destruct Horigin as [Hsame | (cp & _ & _ & _ & Hlt)];
    [ | simpl in Hlt; lra ].
  rewrite result_eta in Hsame. subst cb1.
  split.
  - destruct budget as [|budget]; simpl in Hrest;
      (assert (E2 : Rlt_b (totalDist currentBest) (totalDist currentBest) = false)
         by (apply Rlt_b_false; lra));
      rewrite E2 in Hrest; injection Hrest as <- _; reflexivity.
  - intros cand Hin.
    apply (testCandidates_best _ _ _ _ _ _ Hbest cand Hin).
Qed.

Lemma radiusFor_unchanged (pCA : list Ilatlngxyz) (budget : nat) (n : nat) :
  forall (testRadius : R) (currentBest : IdistanceCenterResult) (m : meter)
         (res : IdistanceCenterResult) (m' : meter),
    radiusFor n budget pCA testRadius currentBest m = Some (res, m') ->
    totalDist res = totalDist currentBest ->
    forall r : nat, (r < n)%nat ->
    forall cand, In cand (ringCandidates currentBest (testRadius / 2 ^ r)) ->
                 totalDist currentBest <= _sumRadianDistance cand pCA.
Proof.
  induction n as [|n IH]; intros testRadius currentBest m res m' Hrun Heq r Hr cand Hin;
    [ lia | ].
  cbn [radiusFor] in Hrun.
  apply bind_Some in Hrun. destruct Hrun as (cb1 & m1 & Hring & Hrest).
  pose proof (ringWhile_spec _ _ _ _ _ _ _ _ Hring) as (Hle1 & _ & _).
  pose proof (radiusFor_spec _ _ _ _ _ _ _ _ Hrest) as (Hle2 & _ & _).
  assert (H1 : totalDist cb1 = totalDist currentBest) by lra.
  apply ringWhile_unchanged in Hring; [ | lra | exact H1 ].
  destruct Hring as (-> & Hstable).
  destruct r as [|r].
  - apply Hstable. simpl in Hin. now replace (testRadius / 1) with testRadius in Hin by field.
  - apply (IH _ _ _ _ _ Hrest Heq r); [ lia | ].
    replace (testRadius / 2 / 2 ^ r) with (testRadius / 2 ^ S r); [ exact Hin | ].
    simpl. field. apply pow_nonzero. lra.
Qed.

Lemma acos_strictly_decreasing (u v : R) :
  -1 <= u -> u < v -> v <= 1 -> acos v < acos u.
Proof.
  intros Hu Huv Hv.
  pose proof (acos_bound u) as Bu. pose proof (acos_bound v) as Bv.
  apply Rnot_le_lt. intro Hle.
  assert (H : cos (acos v) <= cos (acos u)) by (apply cos_decr_1; lra).
  rewrite !cos_acos in H by lra. lra.
Qed.

Lemma atan2_0_nonneg (u : R) : 0 <= u -> Math.atan2 0 u = 0.
Proof.
  intro Hu. unfold Math.atan2.
  destruct (Rlt_dec 0 u).
  - unfold Rdiv. rewrite Rmult_0_l. apply atan_0.
  - destruct (Rlt_dec u 0); [ lra | ].
    destruct (Rlt_dec 0 0); [ lra | reflexivity ].
Qed.

Lemma atan2_neg_sin_cos (h : R) :
  0 <= h < PI / 2 -> Math.atan2 (- sin h) (cos h) = - h.
Proof.
  intros [H0 H1]. unfold Math.atan2.
  assert (Hc : 0 < cos h) by (apply cos_gt_0; lra).
  destruct (Rlt_dec 0 (cos h)); [ | contradiction ].
  replace (- sin h / cos h) with (tan (- h))
    by (unfold tan; rewrite sin_neg, cos_neg; field; lra).
  apply atan_tan. lra.
Qed.

(** Destinations along the prime meridian and along the equator. *)

Lemma destination_north (phi rho : R) :
  - (PI / 2) <= phi <= PI / 2 ->
  - (PI / 2) <= phi + rho <= PI / 2 ->
  _destinationPointRadians {| lat := phi; lng := 0 |} (Math.PI / 4 * INR 0) rho =
  {| lat := phi + rho; lng := 0 |}.
Proof.
  intros Hphi Hsum. pose proof PI_RGT_0 as Hpi.
  unfold _destinationPointRadians; cbn [lat lng INR].
  unfold Math.sin, Math.cos, Math.asin, Math.abs, Math.PI.
  rewrite Rmult_0_r, cos_0, sin_0.
  assert (Hlat : asin (sin phi * cos rho + cos phi * sin rho * 1) = phi + rho).
  { rewrite Rmult_1_r, <- sin_plus. now apply asin_sin. }
  rewrite Hlat.
  assert (Hx : 0 <= cos rho - sin phi * sin (phi + rho)).
  { replace rho with ((phi + rho) - phi) at 1 by ring.
    rewrite cos_minus.
    assert (0 <= cos phi) by (apply cos_ge_0; lra).
    assert (0 <= cos (phi + rho)) by (apply cos_ge_0; lra).
    nra. }
  replace (0 * sin rho * cos phi) with 0 by ring.
  rewrite atan2_0_nonneg by exact Hx.
  assert (E1 : Rgt_b (Rabs (phi + rho)) (PI / 2) = false).
  { apply Rgt_b_false. apply Rabs_le. lra. }
  rewrite E1.
  assert (E2 : Rgt_b (0 + 0) PI = false) by (apply Rgt_b_false; lra).
  assert (E3 : Rlt_b (0 + 0) (- PI) = false) by (apply Rlt_b_false; lra).
  rewrite E2, E3. f_equal. ring.
Qed.

Lemma destination_south (phi rho : R) :
  - (PI / 2) <= phi <= PI / 2 ->
  - (PI / 2) <= phi - rho <= PI / 2 ->
  _destinationPointRadians {| lat := phi; lng := 0 |} (Math.PI / 4 * INR 4) rho =
  {| lat := phi - rho; lng := 0 |}.
Proof.
  intros Hphi Hdiff. pose proof PI_RGT_0 as Hpi.
  unfold _destinationPointRadians; cbn [lat lng].
  unfold Math.sin, Math.cos, Math.asin, Math.abs, Math.PI.
  replace (PI / 4 * INR 4) with PI by (simpl; field).
  rewrite cos_PI, sin_PI.
  assert (Hlat : asin (sin phi * cos rho + cos phi * sin rho * -1) = phi - rho).
  { replace (sin phi * cos rho + cos phi * sin rho * -1)
      with (sin (phi - rho)) by (rewrite sin_minus; ring).
    now apply asin_sin. }
  rewrite Hlat.
  assert (Hx : 0 <= cos rho - sin phi * sin (phi - rho)).
  { replace rho with (phi - (phi - rho)) at 1 by ring.
    rewrite cos_minus.
    assert (0 <= cos phi) by (apply cos_ge_0; lra).
    assert (0 <= cos (phi - rho)) by (apply cos_ge_0; lra).
    nra. }
  replace (0 * sin rho * cos phi) with 0 by ring.
  rewrite atan2_0_nonneg by exact Hx.
  assert (E1 : Rgt_b (Rabs (phi - rho)) (PI / 2) = false).
  { apply Rgt_b_false. apply Rabs_le. lra. }
  rewrite E1.
  assert (E2 : Rgt_b (0 + 0) PI = false) by (apply Rgt_b_false; lra).
  assert (E3 : Rlt_b (0 + 0) (- PI) = false) by (apply Rlt_b_false; lra).
  rewrite E2, E3. f_equal. ring.
Qed.

Lemma destination_east (lam rho : R) :
  0 <= rho <= PI / 2 ->
  - PI <= lam + rho <= PI ->
  _destinationPointRadians {| lat := 0; lng := lam |} (Math.PI / 4 * INR 2) rho =
  {| lat := 0; lng := lam + rho |}.
Proof.
  intros Hrho Hsum. pose proof PI_RGT_0 as Hpi.
  unfold _destinationPointRadians; cbn [lat lng].
  unfold Math.sin, Math.cos, Math.asin, Math.abs, Math.PI.
  replace (PI / 4 * INR 2) with (PI / 2) by (simpl; field).
  rewrite cos_PI2, sin_PI2, sin_0, cos_0.
  replace (0 * cos rho + 1 * sin rho * 0) with 0 by ring.
  rewrite asin_0, sin_0.
  replace (1 * sin rho * 1) with (sin rho) by ring.
  replace (cos rho - 0 * 0) with (cos rho) by ring.
  rewrite atan2_sin_cos by exact Hrho.
  assert (E1 : Rgt_b (Rabs 0) (PI / 2) = false).
  { apply Rgt_b_false. rewrite Rabs_R0. lra. }
  rewrite E1.
  assert (E2 : Rgt_b (lam + rho) PI = false) by (apply Rgt_b_false; lra).
  assert (E3 : Rlt_b (lam + rho) (- PI) = false) by (apply Rlt_b_false; lra).
  rewrite E2, E3. reflexivity.
Qed.

Lemma destination_west (lam rho : R) :
  0 <= rho < PI / 2 ->
  - PI <= lam - rho <= PI ->
  _destinationPointRadians {| lat := 0; lng := lam |} (Math.PI / 4 * INR 6) rho =
  {| lat := 0; lng := lam - rho |}.
Proof.
  intros Hrho Hdiff. pose proof PI_RGT_0 as Hpi.
  unfold _destinationPointRadians; cbn [lat lng].
  unfold Math.sin, Math.cos, Math.asin, Math.abs, Math.PI.
  replace (PI / 4 * INR 6) with (3 * (PI / 2)) by (simpl; field).
  rewrite cos_3PI2, sin_3PI2, sin_0, cos_0.
  replace (0 * cos rho + 1 * sin rho * 0) with 0 by ring.
  rewrite asin_0, sin_0.
  replace (-1 * sin rho * 1) with (- sin rho) by ring.
  replace (cos rho - 0 * 0) with (cos rho) by ring.
  rewrite atan2_neg_sin_cos by exact Hrho.
  assert (E1 : Rgt_b (Rabs 0) (PI / 2) = false).
  { apply Rgt_b_false. rewrite Rabs_R0. lra. }
  rewrite E1.
  assert (E2 : Rgt_b (lam + - rho) PI = false) by (apply Rgt_b_false; lra).
  assert (E3 : Rlt_b (lam + - rho) (- PI) = false) by (apply Rlt_b_false; lra).
  rewrite E2, E3. reflexivity.
Qed.

Lemma toRadians_0 : toRadians 0 = 0.
Proof. unfold toRadians. field. Qed.
Lemma toRadians_45 : toRadians 45 = PI / 4.
Proof. unfold toRadians, Math.PI. field. Qed.
Lemma toRadians_m45 : toRadians (-45) = - (PI / 4).
Proof. unfold toRadians, Math.PI. field. Qed.
Lemma toRadians_90 : toRadians 90 = PI / 2.
Proof. unfold toRadians, Math.PI. field. Qed.

Lemma cos_PI4_pos : 0 < cos (PI / 4).
Proof. apply cos_gt_0; pose proof PI_RGT_0; lra. Qed.

(** The sum of the distances from [q] to the four points of the kite. *)
Lemma kite_sum (q : Ilatlng) :
  _sumRadianDistance q (_toCenteringArray kite) =
  acos (cosAngle q {| lat := 0; lng := - (PI / 4) |}) +
  acos (cosAngle q {| lat := 0; lng := PI / 4 |}) +
  acos (cosAngle q {| lat := PI / 2; lng := 0 |}) +
  acos (cosAngle q {| lat := - (PI / 4); lng := 0 |}).
Proof.
  unfold _sumRadianDistance, _toCenteringArray, kite; simpl.
  rewrite toRadians_0, toRadians_45, toRadians_m45, toRadians_90.
  rewrite !radianDistance_acos. ring.
Qed.

(** On the prime meridian between D and C. *)
Lemma kite_sum_meridian (phi : R) :
  - (PI / 4) <= phi <= PI / 2 ->
  _sumRadianDistance {| lat := phi; lng := 0 |} (_toCenteringArray kite) =
  2 * acos (cos phi * cos (PI / 4)) + 3 * (PI / 4).
Proof.
  intros Hphi. pose proof PI_RGT_0 as Hpi.
  rewrite kite_sum. unfold cosAngle; cbn [lat lng].
  rewrite sin_0, cos_0, sin_PI2, cos_PI2, !Rminus_0_r, cos_0.
  replace (- (PI / 4) - 0) with (- (PI / 4)) by ring.
  rewrite cos_neg, sin_neg.
  replace (sin phi * 0 + cos phi * 1 * cos (PI / 4))
    with (cos phi * cos (PI / 4)) by ring.
  replace (sin phi * 1 + cos phi * 0 * 1) with (cos (PI / 2 - phi))
    by (rewrite cos_shift; ring).
  replace (sin phi * - sin (PI / 4) + cos phi * cos (PI / 4) * 1)
    with (cos (phi + PI / 4)) by (rewrite cos_plus; ring).
  rewrite !acos_cos by lra. field.
Qed.

(** On the equator between A and B. *)
Lemma kite_sum_equator (lam : R) :
  - (PI / 4) <= lam <= PI / 4 ->
  _sumRadianDistance {| lat := 0; lng := lam |} (_toCenteringArray kite) =
  PI + acos (cos lam * cos (PI / 4)).
Proof.
  intros Hlam. pose proof PI_RGT_0 as Hpi.
  rewrite kite_sum. unfold cosAngle; cbn [lat lng].
  rewrite sin_0, cos_0, sin_PI2, cos_PI2, cos_neg.
  replace (0 * 0 + 1 * 1 * cos (- (PI / 4) - lam)) with (cos (lam + PI / 4)).
  2:{ replace (- (PI / 4) - lam) with (- (lam + PI / 4)) by ring.
      rewrite cos_neg. ring. }
  replace (0 * 0 + 1 * 1 * cos (PI / 4 - lam)) with (cos (PI / 4 - lam)) by ring.
  replace (0 * 1 + 1 * 0 * cos (0 - lam)) with 0 by ring.
  replace (0 * sin (- (PI / 4)) + 1 * cos (PI / 4) * cos (0 - lam))
    with (cos lam * cos (PI / 4)).
  2:{ replace (0 - lam) with (- lam) by ring. rewrite cos_neg. ring. }
  rewrite !acos_cos by lra. rewrite acos_0. field.
Qed.

(** Nearer to (0, 0) along the meridian, the sum is smaller. *)
Lemma kite_meridian_improves (phi phi' : R) :
  - (PI / 4) <= phi <= PI / 2 ->
  - (PI / 4) <= phi' <= PI / 2 ->
  cos phi < cos phi' ->
  _sumRadianDistance {| lat := phi'; lng := 0 |} (_toCenteringArray kite) <
  _sumRadianDistance {| lat := phi; lng := 0 |} (_toCenteringArray kite).
Proof.
  intros H1 H2 Hc. rewrite !kite_sum_meridian by assumption.
  pose proof cos_PI4_pos as Hq.
  pose proof (COS_bound phi) as B1. pose proof (COS_bound phi') as B2.
  pose proof (COS_bound (PI / 4)) as B3.
  assert (acos (cos phi' * cos (PI / 4)) < acos (cos phi * cos (PI / 4))).
  { apply acos_strictly_decreasing; nra. }
  lra.
Qed.

Lemma kite_equator_improves (lam lam' : R) :
  - (PI / 4) <= lam <= PI / 4 ->
  - (PI / 4) <= lam' <= PI / 4 ->
  cos lam < cos lam' ->
  _sumRadianDistance {| lat := 0; lng := lam' |} (_toCenteringArray kite) <
  _sumRadianDistance {| lat := 0; lng := lam |} (_toCenteringArray kite).
Proof.
  intros H1 H2 Hc. rewrite !kite_sum_equator by assumption.
  pose proof cos_PI4_pos as Hq.
  pose proof (COS_bound lam) as B1. pose proof (COS_bound lam') as B2.
  pose proof (COS_bound (PI / 4)) as B3.
  assert (acos (cos lam' * cos (PI / 4)) < acos (cos lam * cos (PI / 4))).
  { apply acos_strictly_decreasing; nra. }
  lra.
Qed.

Lemma cos_PI4_sqr : cos (PI / 4) * cos (PI / 4) = 1 / 2.
Proof.
  rewrite cos_PI4. pose proof Rlt_sqrt2_0 as H2.
  pose proof (sqrt_sqrt 2) as Hs.
  assert (Hs' : sqrt 2 * sqrt 2 = 2) by (apply Hs; lra).
  field_simplify; [ | lra ]. replace (sqrt 2 ^ 2) with (sqrt 2 * sqrt 2) by ring.
  rewrite Hs'. field.
Qed.

Lemma cos_PI4_bounds : 7 / 10 < cos (PI / 4) < 71 / 100.
Proof.
  pose proof cos_PI4_sqr as Hk. pose proof cos_PI4_pos as Hp. split; nra.
Qed.

(** The midpoint of the kite lies on the prime meridian, north of (0, 0). *)
Lemma kite_midpoint :
  latlng (_computeAverageCoordinates (_toCenteringArray kite)) =
  {| lat := kite_g; lng := 0 |}.
Proof.
  pose proof cos_PI4_bounds as [Hk1 Hk2].
  unfold _computeAverageCoordinates, _toCenteringArray, kite, _cartesianToRadians,
    add_xyz, zero_xyz; simpl.
  rewrite toRadians_0, toRadians_45, toRadians_m45, toRadians_90.
  unfold Math.cos, Math.sin, Math.sqrt.
  rewrite cos_0, sin_0, sin_PI2, cos_PI2, cos_neg, sin_neg.
  assert (Hs : sin (PI / 4) = cos (PI / 4)) by (rewrite sin_PI4, cos_PI4; reflexivity).
  rewrite Hs. set (k := cos (PI / 4)) in *.
  replace ((0 + 1 * k + 1 * k + 0 * 1 + k * 1) / (1 + 1 + 1 + 1))
    with (3 * k / 4) by field.
  replace ((0 + 1 * - k + 1 * k + 0 * 0 + k * 0) / (1 + 1 + 1 + 1))
    with 0 by field.
  replace ((0 + 0 + 0 + 1 + - k) / (1 + 1 + 1 + 1)) with ((1 - k) / 4) by field.
  replace (3 * k / 4 * (3 * k / 4) + 0 * 0) with ((3 * k / 4) * (3 * k / 4)) by ring.
  rewrite sqrt_square by lra.
  rewrite atan2_0_nonneg by lra.
  unfold Math.atan2.
  destruct (Rlt_dec 0 (3 * k / 4)); [ | lra ].
  unfold kite_g. fold k. f_equal. f_equal. field. lra.
Qed.

Lemma tan_lt_double (v : R) : 0 < v <= 1 / 2 -> tan v < 2 * v.
Proof.
  intros [H0 H1]. pose proof PI2_3_2 as Hpi.
  assert (Hs : sin v < v) by (apply sin_lt_x; exact H0).
  assert (Hs0 : 0 < sin v) by (apply sin_gt_0; lra).
  assert (Hc : 1 / 2 < cos v).
  { rewrite <- cos_PI3. apply cos_decreasing_1; lra. }
  unfold tan.
  apply Rmult_lt_reg_r with (cos v); [ lra | ].
  replace (sin v / cos v * cos v) with (sin v) by (field; lra). nra.
Qed.

Lemma kite_g_bounds : 1 / 16 < kite_g < PI / 2.
Proof.
  pose proof cos_PI4_bounds as [Hk1 Hk2]. pose proof PI2_3_2 as Hpi.
  unfold kite_g. set (k := cos (PI / 4)) in *.
  split; [ | apply atan_bound ].
  assert (Ht : 1 / 8 < (1 - k) / (3 * k)).
  { apply Rmult_lt_reg_r with (3 * k); [ lra | ].
    replace ((1 - k) / (3 * k) * (3 * k)) with (1 - k) by (field; lra). lra. }
  rewrite <- (atan_tan (1 / 16)) at 1 by lra.
  apply atan_increasing.
  pose proof (tan_lt_double (1 / 16)). lra.
Qed.

Lemma latlng_eta (p : Ilatlng) : {| lat := lat p; lng := lng p |} = p.
Proof. now destruct p. Qed.

Lemma ring_candidate (cb : IdistanceCenterResult) (rho : R) (i : nat) :
  (i < 8)%nat ->
  In {| latlng := _destinationPointRadians (point cb) (Math.PI / 4 * INR i) rho;
        x := 0; y := 0; z := 0 |}
     (ringCandidates cb rho).
Proof.
  intro Hi. unfold ringCandidates.
  rewrite <- (latlng_eta (_destinationPointRadians (point cb) (Math.PI / 4 * INR i) rho)).
  apply (in_map (fun i =>
                   let dp := _destinationPointRadians (point cb)
                               (Math.PI / 4 * INR i) rho in
                   {| latlng := {| lat := lat dp; lng := lng dp |};
                      x := 0; y := 0; z := 0 |}) (seq 0 8) i).
  apply in_seq. lia.
Qed.

(** Whatever the seeding step returns on the kite, some ring has a
    candidate with a smaller sum. *)
Lemma kite_seed_improvable (cb : IdistanceCenterResult) :
  let pCA := _toCenteringArray kite in
  totalDist cb = _sumRadianDistance (point cb) pCA ->
  point cb = {| lat := kite_g; lng := 0 |} \/
  (exists cp : Ilatlngxyz, In cp pCA /\ point cb = {| lat := lat cp; lng := lng cp |}) ->
  exists (r : nat) (cand : Ilatlngxyz),
    (r < 17)%nat /\
    In cand (ringCandidates cb (Math.PI / 2 / 2 ^ r)) /\
    _sumRadianDistance cand pCA < totalDist cb.
Proof.
  intros pCA Htot Hpt. pose proof PI2_3_2 as Hpi. pose proof PI_4 as Hpi4.
  pose proof kite_g_bounds as [Hg1 Hg2].
  assert (Hc0 : cos (PI / 4) < cos 0)
    by (apply cos_decreasing_1; lra).
  rewrite Htot.
  destruct Hpt as [Hp | (cp & Hin & Hp)].
  - (* the midpoint: south at PI/32 *)
    exists 4%nat. eexists. split; [ lia | ]. split; [ apply (ring_candidate cb _ 4); lia | ].
    cbn [latlng]. rewrite Hp.
    replace (Math.PI / 2 / 2 ^ 4) with (PI / 32) by (unfold Math.PI; simpl; field).
    rewrite destination_south by lra.
    apply kite_meridian_improves; try lra.
    destruct (Rle_lt_dec 0 (kite_g - PI / 32)).
    + apply cos_decreasing_1; lra.
    + rewrite <- (cos_neg (kite_g - PI / 32)). apply cos_decreasing_1; lra.
  - subst pCA. unfold _toCenteringArray, kite in Hin. simpl in Hin.
    rewrite toRadians_0, toRadians_45, toRadians_m45, toRadians_90 in Hin.
    destruct Hin as [<- | [<- | [<- | [<- | []]]]]; cbn [lat lng latlng] in Hp.
    + (* A: east at PI/4 *)
      exists 1%nat. eexists. split; [ lia | ]. split; [ apply (ring_candidate cb _ 2); lia | ].
      cbn [latlng]. rewrite Hp.
      replace (Math.PI / 2 / 2 ^ 1) with (PI / 4) by (unfold Math.PI; simpl; field).
      rewrite destination_east by lra.
      apply kite_equator_improves; try lra.
      replace (- (PI / 4) + PI / 4) with 0 by ring. now rewrite cos_neg.
    + (* B: west at PI/4 *)
      exists 1%nat. eexists. split; [ lia | ]. split; [ apply (ring_candidate cb _ 6); lia | ].
      cbn [latlng]. rewrite Hp.
      replace (Math.PI / 2 / 2 ^ 1) with (PI / 4) by (unfold Math.PI; simpl; field).
      rewrite destination_west by lra.
      apply kite_equator_improves; try lra.
      replace (PI / 4 - PI / 4) with 0 by ring. exact Hc0.
    + (* C: south at PI/2 *)
      exists 0%nat. eexists. split; [ lia | ]. split; [ apply (ring_candidate cb _ 4); lia | ].
      cbn [latlng]. rewrite Hp.
      replace (Math.PI / 2 / 2 ^ 0) with (PI / 2) by (unfold Math.PI; simpl; field).
      rewrite destination_south by lra.
      apply kite_meridian_improves; try lra.
      replace (PI / 2 - PI / 2) with 0 by ring. rewrite cos_PI2, cos_0. lra.
    + (* D: north at PI/4 *)
      exists 1%nat. eexists. split; [ lia | ]. split; [ apply (ring_candidate cb _ 0); lia | ].
      cbn [latlng]. rewrite Hp.
      replace (Math.PI / 2 / 2 ^ 1) with (PI / 4) by (unfold Math.PI; simpl; field).
      rewrite destination_north by lra.
      apply kite_meridian_improves; try lra.
      replace (- (PI / 4) + PI / 4) with 0 by ring. now rewrite cos_neg.
Qed.

(** On the kite the ring loop makes at least one pass more than the 17 of
    a run without improvement: every run that returns has evaluated at
    least [1 + 4 + 8 * 18] distance sums, eight more than a run on four
    coinciding points. *)
Lemma kite_takes_extra_passes (self : PlasticGeoDistance) (budget : nat)
  (m m' : meter) (res : IdistanceCenterResult) :
  computeMinimumDistancePoint self budget kite m = Some (res, m') ->
  (sumEvals m + (1 + 4 + 8 * 18) <= sumEvals m')%nat.
Proof.
  intro Hrun.
  unfold computeMinimumDistancePoint, kite in Hrun; cbv zeta in Hrun.
  fold kite in Hrun.
  set (pCA := _toCenteringArray kite) in *.
  assert (Hlen : List.length pCA = 4%nat) by reflexivity.
  pose proof kite_midpoint as Hmid. fold pCA in Hmid.
  pose proof kite_seed_improvable as Himp. cbv zeta in Himp. fold pCA in Himp.
  set (midPt := _computeAverageCoordinates pCA) in *.
  clearbody midPt. clearbody pCA.
  apply bind_Some in Hrun. destruct Hrun as (s & m1 & Hs & Hrun).
  unfold sumRadianDistanceM in Hs. injection Hs as <- <-.
  apply bind_Some in Hrun. destruct Hrun as (cb1 & m2 & Hseed & Hrun).
  apply bind_Some in Hrun. destruct Hrun as (cb2 & m3 & Hrings & Hret).
  unfold ret in Hret. injection Hret as _ <-.
  pose proof Hseed as Horigin. unfold _testCandidateCenterPoints in Horigin.
  cbv zeta in Horigin. cbn [point avgDist totalDist] in Horigin.
  apply testCandidates_origin in Horigin.
  match type of Hseed with
  | _testCandidateCenterPoints ?c ?pts ?e ?mm = _ =>
      destruct (_testCandidateCenterPoints_spec c pts e mm) as (cb1' & Hseed' & _)
  end.
  rewrite Hseed' in Hseed. injection Hseed as -> <-.
  pose proof Hrings as Hpass.
  apply radiusFor_passes in Hpass. destruct Hpass as (P & HsP & _ & HP).
  cbn [sumEvals] in HsP. rewrite Hlen in HsP.
  destruct HP as [(-> & Heq) | (HP & _)]; [ exfalso | lia ].
  pose proof (radiusFor_unchanged _ _ _ _ _ _ _ _ Hrings Heq) as Hstable.
  destruct (Himp cb1) as (r & cand & Hr & Hin & Hlt).
  - destruct Horigin as [-> | (cp & _ & Hp & Ht & _)].
    + cbn [point totalDist]. now rewrite latlng_eta.
    + rewrite Ht, Hp. now rewrite latlng_eta.
  - destruct Horigin as [-> | (cp & Hin & Hp & _)].
    + left. cbn [point]. rewrite latlng_eta. exact Hmid.
    + right. exists cp. split; assumption.
  - specialize (Hstable r Hr cand Hin). lra.
Qed.

(** ** Two rectangles worked out

    Around a center on the antimeridian the rectangle wraps, with
    [minLng > maxLng], and points on both sides of the seam are inside;
    around a pole the rectangle spans every longitude. *)

Lemma bounds_on_antimeridian :
  bounds (constructor (Some "K"%string)) (Num 1) {| lat := 0; lng := 180 |} =
  {| minLat := toDegrees (0 - 1 / 6371);
     minLng := toDegrees (Math.PI - 1 / 6371);
     maxLat := toDegrees (0 + 1 / 6371);
     maxLng := toDegrees (Math.PI + 1 / 6371 - 2 * Math.PI) |}.
Proof.
  set (rd := 1 / 6371).
  pose proof PI_bounds as [Hlo Hhi].
  assert (Hrd : 0 < rd < 1) by (unfold rd; lra).
  unfold bounds; cbv zeta.
  assert (Hq : geoToRadians {| lat := 0; lng := 180 |} =
               {| lat := 0; lng := Math.PI |}).
  { unfold geoToRadians, toRadians; simpl. f_equal; field. }
  rewrite Hq. cbn [lat lng isNaN num_le0 num_val].
  assert (E0 : Rle_b 1 0 = false) by (apply Rle_b_false; lra).
  rewrite E0. cbn [orb].
  change (_earthRadius (constructor (Some "K"%string))) with 6371.
  fold rd.
  assert (Hd : Math.asin (Math.sin rd / Math.cos 0) = rd).
  { unfold Math.cos, Math.sin, Math.asin. rewrite cos_0.
    replace (sin rd / 1) with (sin rd) by field.
    apply asin_sin. unfold Math.PI in *. lra. }
  rewrite Hd. unfold toRadians.
  assert (E1 : Rgt_b (0 - rd) (-90 * Math.PI / 180) = true)
    by (apply Rgt_b_true; lra).
  assert (E2 : Rlt_b (0 + rd) (90 * Math.PI / 180) = true)
    by (apply Rlt_b_true; lra).
  assert (E3 : Rlt_b (Math.PI - rd) (-180 * Math.PI / 180) = false)
    by (apply Rlt_b_false; lra).
  assert (E4 : Rgt_b (Math.PI + rd) (180 * Math.PI / 180) = true)
    by (apply Rgt_b_true; lra).
  rewrite E1, E2, E3, E4. reflexivity.
Qed.

Example bounds_wraps_antimeridian :
  let b := bounds (constructor (Some "K"%string)) (Num 1) {| lat := 0; lng := 180 |} in
  minLng b > maxLng b /\
  isInBounds {| lat := 0; lng := 180 |} b = true /\
  isInBounds {| lat := 0; lng := -180 |} b = true /\
  isInBounds {| lat := 0; lng := 0 |} b = false.
Proof.
  cbv zeta. rewrite bounds_on_antimeridian.
  pose proof PI_bounds as [Hlo Hhi].
  assert (Hmin : toDegrees (Math.PI - 1 / 6371) = 180 - toDegrees (1 / 6371))
    by (unfold toDegrees; field; lra).
  assert (Hmax : toDegrees (Math.PI + 1 / 6371 - 2 * Math.PI) =
                 -180 + toDegrees (1 / 6371))
    by (unfold toDegrees; field; lra).
  assert (Hlo' : toDegrees (0 - 1 / 6371) = - toDegrees (1 / 6371))
    by (unfold toDegrees; field; lra).
  assert (Hhi' : toDegrees (0 + 1 / 6371) = toDegrees (1 / 6371))
    by (unfold toDegrees; field; lra).
  assert (Hd : 0 < toDegrees (1 / 6371) < 1).
  { split.
    - rewrite <- (toDegrees_toRadians 0) at 1. apply toDegrees_lt.
      unfold toRadians. lra.
    - rewrite <- (toDegrees_toRadians 1) at 2. apply toDegrees_lt.
      unfold toRadians. lra. }
  cbn [minLng maxLng]. rewrite Hmin, Hmax, Hlo', Hhi'.
  split; [ lra | ]. split; [ | split ].
  - apply isInBounds_iff; simpl. split; [ lra | left; split; [ lra | left; lra ] ].
  - apply isInBounds_iff; simpl. split; [ lra | left; split; [ lra | right; lra ] ].
  - match goal with |- ?e = false => destruct e eqn:E; [ | reflexivity ] end.
    apply isInBounds_iff in E; simpl in E.
    destruct E as [_ [[_ [H | H]] | [H _]]]; lra.
Qed.

Example bounds_at_pole :
  let b := bounds (constructor (Some "K"%string)) (Num 1) {| lat := 90; lng := 0 |} in
  minLng b = -180 /\ maxLng b = 180 /\ maxLat b = 90 /\ minLat b < 90.
Proof.
  cbv zeta. unfold bounds; cbv zeta.
  pose proof PI_bounds as [Hlo Hhi].
  cbn [isNaN num_le0 num_val].
  assert (E0 : Rle_b 1 0 = false) by (apply Rle_b_false; lra).
  rewrite E0. cbn [orb].
  change (_earthRadius (constructor (Some "K"%string))) with 6371.
  unfold geoToRadians; cbn [lat lng].
  assert (E2 : Rlt_b (toRadians 90 + 1 / 6371) (toRadians 90) = false)
    by (apply Rlt_b_false; lra).
  rewrite E2, andb_false_r. cbn [minLng maxLng minLat maxLat].
  rewrite !toDegrees_toRadians.
  unfold Math.max, Math.min, Rmax, Rmin.
  destruct (Rle_dec (toRadians 90 - 1 / 6371) (toRadians (-90))) as [H | H];
    [ unfold toRadians in H; lra | ].
  destruct (Rle_dec (toRadians 90 + 1 / 6371) (toRadians 90)) as [H' | H'];
    [ lra | ].
  rewrite toDegrees_toRadians.
  repeat split.
  rewrite <- (toDegrees_toRadians 90) at 2. apply toDegrees_lt. lra.
Qed.

(** ** Values of the test suite

    The midpoint of (0, 15) and (0, 35) is (0, 25); a point is at distance 0
    from itself; the two unit systems differ by the ratio of the radii. *)

Lemma atan2_scaled (k h : R) :
  0 < k -> - (PI / 2) < h < PI / 2 ->
  Math.atan2 (k * sin h) (k * cos h) = h.
Proof.
  intros Hk Hh. unfold Math.atan2.
  assert (Hc : 0 < cos h) by (apply cos_gt_0; lra).
  assert (Hkc : 0 < k * cos h) by (apply Rmult_lt_0_compat; assumption).
  destruct (Rlt_dec 0 (k * cos h)); [ | contradiction ].
  replace (k * sin h / (k * cos h)) with (tan h)
    by (unfold tan; field; split; lra).
  now apply atan_tan.
Qed.

Example computeMidpoint_two_points :
  computeMidpoint [ {| lat := 0; lng := 15 |}; {| lat := 0; lng := 35 |} ] =
  {| lat := 0; lng := 25 |}.
Proof.
  pose proof PI_bounds as [Hlo Hhi]. unfold Math.PI in *.
  unfold computeMidpoint, _computeAverageCoordinates, _toCenteringArray,
    _cartesianToRadians, add_xyz, zero_xyz; simpl.
  unfold Math.cos, Math.sin, Math.sqrt.
  replace (toRadians 0) with 0 by (unfold toRadians; field).
  rewrite cos_0, sin_0.
  set (l1 := toRadians 15). set (l2 := toRadians 35).
  assert (Hl1 : l1 = toRadians 25 - toRadians 10)
    by (unfold l1, toRadians; field).
  assert (Hl2 : l2 = toRadians 25 + toRadians 10)
    by (unfold l2, toRadians; field).
  set (h := toRadians 25) in *. set (e := toRadians 10) in *.
  assert (He : 0 < cos e).
  { apply cos_gt_0; unfold e, toRadians, Math.PI; lra. }
  assert (Hh : - (PI / 2) < h < PI / 2)
    by (unfold h, toRadians, Math.PI; lra).
  assert (Hx : (0 + 1 * cos l1 + 1 * cos l2) / (1 + 1) = cos e * cos h).
  { rewrite Hl1, Hl2, cos_minus, cos_plus. field. }
  assert (Hy : (0 + 1 * sin l1 + 1 * sin l2) / (1 + 1) = cos e * sin h).
  { rewrite Hl1, Hl2, sin_minus, sin_plus. field. }
  assert (Hz : (0 + 0 + 0) / (1 + 1) = 0) by field.
  rewrite Hx, Hy, Hz.
  rewrite atan2_scaled by assumption.
  assert (Hs : 0 < sqrt (cos e * cos h * (cos e * cos h) +
                         cos e * sin h * (cos e * sin h))).
  { apply sqrt_lt_R0.
    pose proof (sin_cos_unit h).
    replace (cos e * cos h * (cos e * cos h) + cos e * sin h * (cos e * sin h))
      with (cos e * cos e * (sin h * sin h + cos h * cos h)) by ring.
    rewrite H. nra. }
  unfold Math.atan2 at 1.
  destruct (Rlt_dec 0 _) as [_ | Hn]; [ | contradiction ].
  unfold Rdiv at 1. rewrite Rmult_0_l, atan_0.
  unfold geoToDegrees; simpl. f_equal.
  - unfold toDegrees. field. unfold Math.PI. lra.
  - apply toDegrees_toRadians.
Qed.


Lemma distance_units (a b : Ilatlng) :
  distance (constructor (Some "K"%string)) a b =
  distance (constructor (Some "M"%string)) a b * (6371 / (3958756 / 1000)).
Proof.
  rewrite !distance_unfold.
  change (_earthRadius (constructor (Some "K"%string))) with 6371.
  change (_earthRadius (constructor (Some "M"%string))) with (3958756 / 1000).
  field.
Qed.

(** ** Degrees and radians

    The two conversions are inverse to each other and keep the order; the
    bounds of a coordinate in degrees are those of a coordinate in
    radians. *)














(** ** The angle of a vector

    [Math.atan2] returns an angle of [(-PI, PI]], and the angle of the
    vector it is given. *)







(** ** The central angle and the latitudes *)

Lemma radianDistance_range (pA pB : Ilatlng) : 0 <= radianDistance pA pB <= PI.
Proof. rewrite radianDistance_acos. apply acos_bound. Qed.







(** ** The distance as a metric *)

(** X4: a distance is never negative and never more than half the
    circumference, [PI] times the radius of the instance; the distance from
    a point to itself is 0. *)
Theorem X4_distance_range (units : option string) (a b : Ilatlng) :
  0 <= distance (constructor units) a b <=
    Math.PI * _earthRadius (constructor units) /\
  distance (constructor units) a a = 0.
Proof.
  pose proof (earthRadius_pos units) as HR.
  rewrite !distance_unfold, radianDistance_refl.
  pose proof (radianDistance_range (geoToRadians a) (geoToRadians b)) as [H0 H1].
  unfold Math.PI. repeat split.
  - apply Rmult_le_pos; lra.
  - rewrite (Rmult_comm PI). apply Rmult_le_compat_l; lra.
  - ring.
Qed.







(** ** The rectangle contains the disc

    Away from the poles the half-width [deltaLng] of the rectangle is the
    largest difference of longitude of a point of the disc.  The points of
    longitude 180 and -180 are left out of the statement: the test of
    [isInBounds] compares longitudes as numbers, so a rectangle that starts
    at -180 has no point of longitude 180, and one that ends at 180 none of
    longitude -180. *)







(** X10: with a radius that is NaN, zero or negative, the rectangle of
    [bounds] accepts exactly one point: the one whose degrees are the
    coordinates of the center in radians. *)
Theorem X10_bounds_degenerate_single_point (self : PlasticGeoDistance)
  (radius : number) (c q : Ilatlng) :
  isNaN radius = true \/ (exists r, radius = Num r /\ r <= 0) ->
  (isInBounds q (bounds self radius c) = true <-> q = geoToRadians c).
Proof.
  intro Hdeg. rewrite (bounds_degenerate self radius c Hdeg).
  rewrite isInBounds_iff; cbn [minLat maxLat minLng maxLng].
  destruct q as [a b]; unfold geoToRadians; cbn [lat lng].
  split.
  - intros [Hlat [[Hgt _] | [_ Hlng]]]; [ lra | ].
    f_equal; lra.
  - intro H. injection H as -> ->.
    split; [ lra | right; split; lra ].
Qed.

Lemma X10_bounds_degenerate_single_point_witness :
  isInBounds {| lat := 46; lng := -112 |}
    (bounds (constructor None) (Num 0) {| lat := 46; lng := -112 |}) = true <->
  {| lat := 46; lng := -112 |} = geoToRadians {| lat := 46; lng := -112 |}.
Proof.
  apply (X10_bounds_degenerate_single_point (constructor None) (Num 0)
           {| lat := 46; lng := -112 |} {| lat := 46; lng := -112 |}).
  right. exists 0. split; [ reflexivity | lra ].
Defined.

(** ** Centering array and midpoint *)
















(** ** Sums of distances *)






(** ** The destination point *)












(** ** One pass over the candidates picks a minimum *)

Lemma testCandidates_choice (candidates points : list Ilatlngxyz) :
  forall (result result' : IdistanceCenterResult) (m m' : meter),
    testCandidates candidates points result m = Some (result', m') ->
    avgDist result' = avgDist result /\
    (result' = result \/
     exists cp : Ilatlngxyz,
       In cp candidates /\
       point result' = {| lat := lat cp; lng := lng cp |} /\
       totalDist result' = _sumRadianDistance cp points /\
       totalDist result' < totalDist result).
Proof.
  induction candidates as [|c rest IH]; intros result result' m m' Hrun.
  - simpl in Hrun. injection Hrun as <- _. split; [ reflexivity | now left ].
  - simpl in Hrun. apply bind_Some in Hrun.
    destruct Hrun as (dist & m1 & Hd & Hrest).
    unfold sumRadianDistanceM in Hd. injection Hd as <- <-.
    apply IH in Hrest. destruct Hrest as (Havg & Hcase).
    destruct (Rlt_b (_sumRadianDistance c points) (totalDist result)) eqn:E.
    + apply Rlt_b_true in E. cbn [avgDist totalDist] in *.
      split; [ exact Havg | right ].
      destruct Hcase as [-> | (cp & Hin & Hp & Ht & Hlt)].
      * exists c. cbn [point totalDist]. repeat split; [ now left | exact E ].
      * exists cp. repeat split; [ now right | exact Hp | exact Ht | lra ].
    + split; [ exact Havg | ].
      destruct Hcase as [-> | (cp & Hin & Hp & Ht & Hlt)]; [ now left | right ].
      exists cp. repeat split; [ now right | exact Hp | exact Ht | exact Hlt ].
Qed.

(** X22: [_testCandidateCenterPoints] always returns; it keeps [avgDist];
    its total is not larger than the total of [existingBest] nor than the
    sum of distances of any candidate; and the result is either
    [existingBest] unchanged or a candidate, with its sum of distances,
    that is strictly better than [existingBest]. *)
Theorem X22_testCandidateCenterPoints_minimum (candidates points : list Ilatlngxyz)
  (existingBest : IdistanceCenterResult) (m : meter) :
  exists (result : IdistanceCenterResult) (m' : meter),
    _testCandidateCenterPoints candidates points existingBest m = Some (result, m') /\
    avgDist result = avgDist existingBest /\
    totalDist result <= totalDist existingBest /\
    (forall cp : Ilatlngxyz,
       In cp candidates -> totalDist result <= _sumRadianDistance cp points) /\
    (result = existingBest \/
     exists cp : Ilatlngxyz,
       In cp candidates /\
       point result = {| lat := lat cp; lng := lng cp |} /\
       totalDist result = _sumRadianDistance cp points /\
       totalDist result < totalDist existingBest).
Proof.
  destruct (_testCandidateCenterPoints_spec candidates points existingBest m)
    as (result & Hrun & Hle & _).
  exists result. eexists. split; [ exact Hrun | ].
  unfold _testCandidateCenterPoints in Hrun; cbv zeta in Hrun.
  pose proof (testCandidates_choice _ _ _ _ _ _ Hrun) as (Havg & Hcase).
  pose proof (testCandidates_best _ _ _ _ _ _ Hrun) as Hbest.
  cbn [avgDist totalDist] in *.
  repeat split; [ exact Havg | exact Hle | exact Hbest | ].
  destruct Hcase as [-> | H]; [ left | right; exact H ].
  destruct existingBest as [[a b] v t]. reflexivity.
Qed.

(** ** Invariants of the search

    The current best of the search always carries the sum of distances from
    its own point, and its point stays a coordinate in radians. *)








(** The stages of a run on two points or more. *)
Lemma search_stages (self : PlasticGeoDistance) (budget : nat)
  (p0 p1 : Ilatlng) (rest : list Ilatlng) (m m' : meter)
  (res : IdistanceCenterResult) :
  let points := p0 :: p1 :: rest in
  let pCA := _toCenteringArray points in
  let midPt := _computeAverageCoordinates pCA in
  computeMinimumDistancePoint self budget points m = Some (res, m') ->
  exists (cb1 cb2 : IdistanceCenterResult) (m1 m2 : meter),
    _testCandidateCenterPoints pCA pCA
      {| point := midPt; avgDist := 0; totalDist := _sumRadianDistance midPt pCA |}
      m1 = Some (cb1, m2) /\
    radiusFor 17 budget pCA (Math.PI / 2) cb1 m2 = Some (cb2, m') /\
    res = {| point := geoToDegrees (point cb2);
             avgDist := totalDist cb2 * _earthRadius self / INR (List.length points);
             totalDist := totalDist cb2 * _earthRadius self |}.
Proof.
  intros points pCA midPt Hrun.
  unfold computeMinimumDistancePoint in Hrun; cbv zeta in Hrun.
  fold points in Hrun. fold pCA in Hrun. fold midPt in Hrun.
  assert (Hpts : exists a b t, points = a :: b :: t) by (now exists p0, p1, rest).
  clearbody midPt. clearbody pCA. clearbody points.
  destruct Hpts as (a & b & t & Hpts). rewrite Hpts in Hrun. rewrite <- Hpts in Hrun.
  apply bind_Some in Hrun. destruct Hrun as (s & m1 & Hs & Hrun).
  unfold sumRadianDistanceM in Hs. injection Hs as <- <-.
  apply bind_Some in Hrun. destruct Hrun as (cb1 & m2 & Hseed & Hrun).
  apply bind_Some in Hrun. destruct Hrun as (cb2 & m3 & Hrings & Hret).
  unfold ret in Hret. injection Hret as <- <-.
  exists cb1, cb2. eexists. exists m2.
  split; [ exact Hseed | split; [ exact Hrings | reflexivity ] ].
Qed.












(** ** Runs that return, with every budget *)



(** X28: on two or more copies of one point
    [computeMinimumDistancePoint] returns, with every budget of at least one
    pass per radius, and [totalDist] and [avgDist] are 0. *)
Theorem X28_search_on_coinciding_points (units : option string) (p : Ilatlng)
  (k budget : nat) (m : meter) :
  (1 <= budget)%nat ->
  exists (res : IdistanceCenterResult) (m' : meter),
    computeMinimumDistancePoint (constructor units) budget
      (p :: p :: repeat p k) m = Some (res, m') /\
    totalDist res = 0 /\ avgDist res = 0.
Proof.
  intro Hb.
  destruct (search_returns_on_copies units p k m) as (res & Hrun & Htot).
  exists res. eexists.
  split; [ exact (search_budget _ 1 budget _ m _ Hb Hrun) | ].
  split; [ exact Htot | ].
  apply search_stages in Hrun; cbv zeta in Hrun.
  destruct Hrun as (cb1 & cb2 & m1 & m2 & _ & _ & Hres).
  rewrite Hres in Htot |- *. cbn [avgDist totalDist] in *.
  rewrite Htot. unfold Rdiv. ring.
Qed.

Lemma X28_search_on_coinciding_points_witness :
  exists (res : IdistanceCenterResult) (m' : meter),
    computeMinimumDistancePoint (constructor None) 1
      ({| lat := 46; lng := -112 |} :: {| lat := 46; lng := -112 |} ::
       repeat {| lat := 46; lng := -112 |} 2) meter0 = Some (res, m') /\
    totalDist res = 0 /\ avgDist res = 0.
Proof.
  apply (X28_search_on_coinciding_points None {| lat := 46; lng := -112 |} 2 1 meter0).
  lia.
Defined.
